(** * CapacitorSerial: the serial protocol of the Capacitor (Android) build

    A shallow embedding of [src/js/protocols/CapacitorSerial.js], the class
    [CapacitorSerialProtocol], and the properties of its device registry,
    its permission negotiation and its connect / send / disconnect
    life cycle.

    Conventions of the embedding.
    - The object's fields are a record; a method is a computation in a
      small monad that threads the object, an ordered trace of what the
      method did to the outside (transport calls, dispatched events,
      invocations of the consumer's callback) and a completion, normal or
      abrupt.  A field assignment made before a [throw] stays made.
    - A method that the consumer awaits runs from its call to its
      completion: [await] of a transport call is sequential there (the
      spec's host is single-threaded and cooperative).  The one call
      that nothing can await, the [loadDevices()] that the constructor
      starts, is kept pending at its [await] and resumes, one turn of its
      loop at a time, between the calls that follow.
    - [console.log] and [console.error] are not part of the model.
    - JS numbers that count bytes or name a vendor are integers, [Z]. *)

From Stdlib Require Import ZArith List String Bool Lia DecimalString.
Import ListNotations.
Local Open Scope string_scope.
Local Open Scope Z_scope.

(** ** JavaScript values that are thrown, caught and tested *)

Module JS.

(** What a [throw] or a rejected promise can carry.  [Error name message
    cause] is an [Error] object; [cause] is [Undefined] when the option
    was not given. *)
Inductive Value : Type :=
| Undefined
| Null
| Boolean (b : bool)
| Number (n : Z)
| String (s : string)
| Error (name message : string) (cause : Value).

(** ToBoolean, as the test of an [if] applies it. *)
Definition truthy (v : Value) : bool :=
  match v with
  | Undefined | Null => false
  | Boolean b => b
  | Number n => negb (n =? 0)
  | String s => negb (String.eqb s "")
  | Error _ _ _ => true
  end.

(** Reading a property of [null]. *)
Definition TypeError (property : string) : Value :=
  Error "TypeError"
        ("Cannot read properties of null (reading '" ++ property ++ "')")
        Undefined.

(** [`${n}`] for an integer [n]. *)
Definition template_of_number (n : Z) : string :=
  NilZero.string_of_int (Z.to_int n).

End JS.

(** ** Data *)

(** A chunk of raw bytes (a typed array); [byteLength] is its length. *)
Definition Bytes := list Byte.byte.

Definition byteLength (data : Bytes) : Z := Z.of_nat (List.length data).

(** The object literal that [createPort] returns. *)
Record PortDescriptor : Type := mkPort {
  path : string;
  displayName : string;
  vendorId : Z;
  productId : Z
}.

(** The driver constant the class passes to the permission request. *)
Inductive SerialDriverEnum : Type := CDC_ACM_SERIAL_DRIVER.

Record Options : Type := { baudRate : Z }.

(** The message the transport hands to the read callback; [data] may be
    missing. *)
Record SerialMessage : Type := { data : option Bytes }.

(** The answer to a permission request. *)
Record SerialPermissions : Type := { granted : bool }.

(** The argument of the consumer's [send] callback. *)
Record SendInfo : Type := { info_bytesSent : Z }.

(** The [CustomEvent]s the class dispatches, with their [detail]. *)
Inductive CustomEvent : Type :=
| addedDevice (detail : option PortDescriptor)
| removedDevice (detail : option PortDescriptor)
| connectEvent (detail : bool)
| disconnectEvent (detail : bool)
| receive (detail : Bytes).

(** The calls made to the transport plugin [Serial]. *)
Inductive Call : Type :=
| requestSerialPermissionsCall (vendorId productId : Z) (driver : SerialDriverEnum)
| openConnectionCall (options : Options)
| registerReadCallbackCall
| unregisterReadCallbackCall
| closeConnectionCall
| writeCall (data : Bytes).

(** What a method does to the outside, in order. *)
Inductive Effect : Type :=
| Invoke (c : Call)
| Dispatch (e : CustomEvent)
| Callback (arg : SendInfo).

Definition History := list Effect.

(** How a statement, a call or an awaited promise completes. *)
Inductive Completion (A : Type) : Type :=
| Normal (a : A)
| Throw (e : JS.Value).
Arguments Normal {A} a.
Arguments Throw {A} e.

Definition resolved {A} (c : Completion A) : bool :=
  match c with Normal _ => true | Throw _ => false end.

(** The transport plugin, imported from [@adeunis/capacitor-serial] and not
    part of this repository: each awaited call resolves or rejects, and
    the answer may depend on everything that happened before.  A
    permission request may resolve with [null] ([None]).

    [registerReadCallback] is awaited like the others and may reject
    like them; the handler it is given, [readCallback], runs later, when
    the transport has data or an error to deliver. *)
Record Transport : Type := {
  requestSerialPermissions :
    History -> Z -> Z -> SerialDriverEnum -> Completion (option SerialPermissions);
  openConnection : History -> Options -> Completion unit;
  registerReadCallback : History -> Completion unit;
  unregisterReadCallback : History -> Completion unit;
  closeConnection : History -> Completion unit;
  write : History -> Bytes -> Completion unit
}.

(** The consumer's callback of [send]: a function of the consumer, which
    returns or throws, possibly according to what happened before. *)
Definition SendCallback := History -> SendInfo -> Completion unit.

(** The fields the constructor sets.  [ports] is a JS array: [push] can
    put [null] in it, so an entry is an [option].  [receiveListener] is the
    one entry the class ever asks its [EventTarget] to hold: the bound
    [handleReceiveBytes] for the type "receive"; [addEventListener] ignores
    a listener that is already there, so a flag is the whole list. *)
Record CapacitorSerialProtocol : Type := mkProtocol {
  connected : bool;
  connectionInfo : option unit;
  bytesSent : Z;
  bytesReceived : Z;
  isOpen : bool;
  port : option unit;
  ports : list (option PortDescriptor);
  connectionId : option string;
  reading : bool;
  receiveListener : bool
}.

Definition set_bytesReceived (v : Z) (s : CapacitorSerialProtocol) :=
  mkProtocol (connected s) (connectionInfo s) (bytesSent s) v (isOpen s)
             (port s) (ports s) (connectionId s) (reading s) (receiveListener s).

Definition set_isOpen (v : bool) (s : CapacitorSerialProtocol) :=
  mkProtocol (connected s) (connectionInfo s) (bytesSent s) (bytesReceived s) v
             (port s) (ports s) (connectionId s) (reading s) (receiveListener s).

Definition set_port (v : option unit) (s : CapacitorSerialProtocol) :=
  mkProtocol (connected s) (connectionInfo s) (bytesSent s) (bytesReceived s)
             (isOpen s) v (ports s) (connectionId s) (reading s) (receiveListener s).

Definition set_ports (v : list (option PortDescriptor)) (s : CapacitorSerialProtocol) :=
  mkProtocol (connected s) (connectionInfo s) (bytesSent s) (bytesReceived s)
             (isOpen s) (port s) v (connectionId s) (reading s) (receiveListener s).

Definition set_connectionId (v : option string) (s : CapacitorSerialProtocol) :=
  mkProtocol (connected s) (connectionInfo s) (bytesSent s) (bytesReceived s)
             (isOpen s) (port s) (ports s) v (reading s) (receiveListener s).

Definition set_reading (v : bool) (s : CapacitorSerialProtocol) :=
  mkProtocol (connected s) (connectionInfo s) (bytesSent s) (bytesReceived s)
             (isOpen s) (port s) (ports s) (connectionId s) v (receiveListener s).

Definition set_receiveListener (v : bool) (s : CapacitorSerialProtocol) :=
  mkProtocol (connected s) (connectionInfo s) (bytesSent s) (bytesReceived s)
             (isOpen s) (port s) (ports s) (connectionId s) (reading s) v.

(** ** The monad of methods *)

(** The object and the trace of effects so far. *)
Record World : Type := mkWorld {
  this : CapacitorSerialProtocol;
  trace : History
}.

Definition M (A : Type) : Type := World -> Completion A * World.

Definition ret {A} (a : A) : M A := fun w => (Normal a, w).

Definition bind {A B} (m : M A) (k : A -> M B) : M B :=
  fun w =>
    match m w with
    | (Normal a, w') => k a w'
    | (Throw e, w') => (Throw e, w')
    end.

Definition throw {A} (e : JS.Value) : M A := fun w => (Throw e, w).

Declare Scope js_scope.
Delimit Scope js_scope with js.
Notation "x <- c1 ;; c2" := (bind c1 (fun x => c2))
  (at level 61, c1 at next level, right associativity) : js_scope.
Notation "c1 ;; c2" := (bind c1 (fun _ => c2))
  (at level 61, right associativity) : js_scope.
Local Open Scope js_scope.

(** [try { body } catch (error) { handler }]. *)
Definition try_catch {A} (body : M A) (handler : JS.Value -> M A) : M A :=
  fun w =>
    match body w with
    | (Normal a, w') => (Normal a, w')
    | (Throw e, w') => handler e w'
    end.

(** [try { body } catch (error) { handler } finally { finalizer }]: the
    finalizer runs however the first two complete, and its own abrupt
    completion replaces theirs. *)
Definition try_catch_finally {A} (body : M A) (handler : JS.Value -> M A)
           (finalizer : M unit) : M A :=
  fun w =>
    let '(c, w1) := try_catch body handler w in
    match finalizer w1 with
    | (Normal _, w2) => (c, w2)
    | (Throw e, w2) => (Throw e, w2)
    end.

Definition gets {A} (field : CapacitorSerialProtocol -> A) : M A :=
  fun w => (Normal (field (this w)), w).

Definition modify (f : CapacitorSerialProtocol -> CapacitorSerialProtocol) : M unit :=
  fun w => (Normal tt, mkWorld (f (this w)) (trace w)).

Definition record (e : Effect) : M unit :=
  fun w => (Normal tt, mkWorld (this w) (trace w ++ [e])%list).

(** [await Serial.call(...)]: the transport answers from what happened so
    far, and the call joins the trace. *)
Definition await {A} (c : Call) (answer : History -> Completion A) : M A :=
  fun w => (answer (trace w), mkWorld (this w) (trace w ++ [Invoke c])%list).

(** ** The class *)

Definition logHead : string := "[Capacitor Serial]".

(** The fields after the constructor's assignments. *)
Definition initial : CapacitorSerialProtocol :=
  {| connected := false;
     connectionInfo := None;
     bytesSent := 0;
     bytesReceived := 0;
     isOpen := false;
     port := None;
     ports := [];
     connectionId := None;
     reading := false;
     receiveListener := false |}.

(** [(p) => p.vendorId === vid && p.productId === pid], applied to an
    entry that is not [null]. *)
Definition same_device (vid pid : Z) (p : PortDescriptor) : bool :=
  (vendorId p =? vid) && (productId p =? pid).

(** [array.some(predicate)]: stops at the first match; reading
    [p.vendorId] of a [null] entry throws. *)
Fixpoint some_port (vid pid : Z) (l : list (option PortDescriptor))
  : Completion bool :=
  match l with
  | [] => Normal false
  | None :: _ => Throw (JS.TypeError "vendorId")
  | Some p :: rest =>
      if same_device vid pid p then Normal true else some_port vid pid rest
  end.

(** [array.findIndex(predicate)], [-1] when nothing matches. *)
Fixpoint findIndex_port (vid pid : Z) (l : list (option PortDescriptor))
  : Completion Z :=
  match l with
  | [] => Normal (-1)
  | None :: _ => Throw (JS.TypeError "vendorId")
  | Some p :: rest =>
      if same_device vid pid p then Normal 0
      else match findIndex_port vid pid rest with
           | Normal i => Normal (if i =? -1 then -1 else i + 1)
           | Throw e => Throw e
           end
  end.

(** [array.splice(index, 1)] for an index in range: the array without
    that entry, and the entry. *)
Fixpoint splice1 {A} (index : nat) (l : list A) : list A * option A :=
  match l, index with
  | [], _ => ([], None)
  | x :: rest, O => (rest, Some x)
  | x :: rest, S i => let '(rest', removed) := splice1 i rest in (x :: rest', removed)
  end.

Definition lift {A} (c : Completion A) : M A := fun w => (c, w).

(** The default value of the parameter [options] of [connect]. *)
Definition default_options (options : option Options) : Options :=
  match options with Some o => o | None => {| baudRate := 115200 |} end.

(** A pass of [requestPermissionDevice] suspended at its [await]: the
    device asked about, the transport's answer to that request, fixed by
    what had happened when the request was made, and the devices of the
    list that follow. *)
Record Pass : Type := {
  awaited : Z * Z;
  answer : Completion (option SerialPermissions);
  remaining : list (Z * Z)
}.

Section Class.

(** The plugin, and the two tables of [./devices], which is not among
    the sources: the vendor names by vendor id, and the ordered list of
    known devices as pairs (vendorId, productId). *)
Variable Serial : Transport.
Variable vendorIdNames : Z -> option string.
Variable serialDevices : list (Z * Z).

(** [addEventListener("receive", this.handleReceiveBytes)]. *)
Definition addEventListener_receive : M unit :=
  modify (set_receiveListener true).

Definition handleReceiveBytes (detail : Bytes) : M unit :=
  modify (fun s => set_bytesReceived (bytesReceived s + byteLength detail) s).

(** [dispatchEvent]: the event goes to the consumers (the trace), and
    a "receive" event also to the class's own listener when it is
    registered. *)
Definition dispatchEvent (e : CustomEvent) : M unit :=
  record (Dispatch e) ;;
  match e with
  | receive detail =>
      registered <- gets receiveListener ;;
      if registered then handleReceiveBytes detail else ret tt
  | _ => ret tt
  end.

Definition getConnectedPort : M (option string) := gets connectionId.

(** [vendorIdNames[vid] ? vendorIdNames[vid] : `VID:${vid} PID:${pid}`]:
    a missing entry and an empty name both fail the test. *)
Definition vendor_label (vid pid : Z) : string :=
  match vendorIdNames vid with
  | Some name =>
      if JS.truthy (JS.String name) then name
      else "VID:" ++ JS.template_of_number vid ++ " PID:" ++ JS.template_of_number pid
  | None => "VID:" ++ JS.template_of_number vid ++ " PID:" ++ JS.template_of_number pid
  end.

Definition createPort (vid pid : Z) : M (option PortDescriptor) :=
  duplicate <- (ps <- gets ports ;; lift (some_port vid pid ps)) ;;
  if duplicate then ret None
  else
    let displayName := vendor_label vid pid in
    ret (Some {| path := "serial";
                 displayName := "Betaflight " ++ displayName;
                 vendorId := vid;
                 productId := pid |}).

Definition handleNewDevice (vid pid : Z) : M (option PortDescriptor) :=
  added <- createPort vid pid ;;
  modify (fun s => set_ports (ports s ++ [added])%list s) ;;
  dispatchEvent (addedDevice added) ;;
  ret added.

Definition handleDeviceRemoval (vid pid : Z) : M unit :=
  index <- (ps <- gets ports ;; lift (findIndex_port vid pid ps)) ;;
  if negb (index =? -1) then
    ps <- gets ports ;;
    let '(rest, removed) := splice1 (Z.to_nat index) ps in
    modify (set_ports rest) ;;
    dispatchEvent (removedDevice (match removed with Some r => r | None => None end))
  else ret tt.

(** One turn of the [for] loop of [requestPermissionDevice]: [Some b]
    when the body executed [return b], [None] when the loop goes on.
    Everything from the request to the [return] is inside the [try]. *)
Definition requestPermissionDevice_body (vendorId productId : Z)
  : M (option bool) :=
  try_catch
    (permissionResponse <-
       await (requestSerialPermissionsCall vendorId productId CDC_ACM_SERIAL_DRIVER)
             (fun h => requestSerialPermissions Serial h vendorId productId
                                                CDC_ACM_SERIAL_DRIVER) ;;
     response <- match permissionResponse with
                 | Some r => ret r
                 | None => throw (JS.TypeError "granted")
                 end ;;
     if granted response then
       exists_ <- (ps <- gets ports ;; lift (some_port vendorId productId ps)) ;;
       (if negb exists_ then
          _ <- handleNewDevice vendorId productId ;; ret tt
        else ret tt) ;;
       ret (Some true)
     else ret None)
    (fun _ => ret None).

Fixpoint requestPermissionDevice_loop (devices : list (Z * Z)) : M bool :=
  match devices with
  | [] => ret false
  | (vendorId, productId) :: rest =>
      returned <- requestPermissionDevice_body vendorId productId ;;
      match returned with
      | Some b => ret b
      | None => requestPermissionDevice_loop rest
      end
  end.

Definition requestPermissionDevice : M bool :=
  requestPermissionDevice_loop serialDevices.

(** [loadDevices] returns the array or the negotiator's boolean. *)
Definition loadDevices : M (list (option PortDescriptor) + bool) :=
  ps <- gets ports ;;
  if 0 <? Z.of_nat (List.length ps) then ret (inl ps)
  else (b <- requestPermissionDevice ;; ret (inr b)).

Definition getDevices : M (list (option PortDescriptor)) :=
  _ <- loadDevices ;;
  gets ports.

(** What follows [await Serial.requestSerialPermissions(...)] in one turn
    of the loop of [requestPermissionDevice], once the request has
    completed with [answer]: the rest of the [try] and its [catch]. *)
Definition requestPermissionDevice_after (vendorId productId : Z)
           (answer : Completion (option SerialPermissions)) : M (option bool) :=
  try_catch
    (permissionResponse <- lift answer ;;
     response <- match permissionResponse with
                 | Some r => ret r
                 | None => throw (JS.TypeError "granted")
                 end ;;
     if granted response then
       exists_ <- (ps <- gets ports ;; lift (some_port vendorId productId ps)) ;;
       (if negb exists_ then
          _ <- handleNewDevice vendorId productId ;; ret tt
        else ret tt) ;;
       ret (Some true)
     else ret None)
    (fun _ => ret None).

(** A pass of [requestPermissionDevice] goes on with [devices]: with none
    left it returns; else the request for the next one is made, and the
    pass waits for its completion. *)
Definition pass_next (devices : list (Z * Z)) (w : World) : World * option Pass :=
  match devices with
  | [] => (w, None)
  | (vendorId, productId) :: rest =>
      (mkWorld (this w)
               (trace w ++ [Invoke (requestSerialPermissionsCall vendorId productId
                                                                 CDC_ACM_SERIAL_DRIVER)])%list,
       Some {| awaited := (vendorId, productId);
               answer := requestSerialPermissions Serial (trace w) vendorId productId
                                                  CDC_ACM_SERIAL_DRIVER;
               remaining := rest |})
  end.

(** A waiting pass resumes: the turn of the loop ends, and the pass
    returns or goes on with the devices that remain. *)
Definition pass_resume (p : Pass) (w : World) : World * option Pass :=
  match requestPermissionDevice_after (fst (awaited p)) (snd (awaited p)) (answer p) w with
  | (Normal (Some _), w') => (w', None)
  | (_, w') => pass_next (remaining p) w'
  end.

(** [loadDevices()] from its call to its first [await]. *)
Definition loadDevices_begin (w : World) : World * option Pass :=
  if 0 <? Z.of_nat (List.length (ports (this w))) then (w, None)
  else pass_next serialDevices w.

(** The constructor assigns the fields and calls [loadDevices()] without
    awaiting it: it returns the object with that pass waiting for the
    answer to its first request. *)
Definition constructor : World * option Pass :=
  loadDevices_begin (mkWorld initial []).

(** The waiting pass resumed [n] times with nothing in between. *)
Fixpoint resume_times (n : nat) (st : World * option Pass) : World * option Pass :=
  match n, snd st with
  | S n', Some p => resume_times n' (pass_resume p (fst st))
  | _, _ => st
  end.

(** The turns a waiting pass has left at most. *)
Definition turns_left (st : World * option Pass) : nat :=
  match snd st with
  | Some p => S (List.length (remaining p))
  | None => O
  end.

(** The object once the waiting pass has run to its end with no call in
    between. *)
Definition settle (st : World * option Pass) : World :=
  fst (resume_times (turns_left st) st).

(** The handler given to [Serial.registerReadCallback]. *)
Definition readCallback (message : option SerialMessage) (error : option JS.Value)
  : M unit :=
  match message with
  | Some {| data := Some d |} => dispatchEvent (receive d)
  | _ => ret tt
  end.

(** [connect(path, options = { baudRate: 115200 })]; [opened] is false
    when the [catch] clause returned.  The registration of the read
    callback is awaited after the [try]: its rejection is thrown. *)
Definition connect (path : string) (options : option Options) : M bool :=
  let options := default_options options in
  opened <- try_catch
              (await (openConnectionCall options)
                     (fun h => openConnection Serial h options) ;;
               modify (set_isOpen true) ;;
               modify (set_connectionId (Some path)) ;;
               ret true)
              (fun error =>
                 dispatchEvent (connectEvent false) ;;
                 ret false) ;;
  if opened then
    addEventListener_receive ;;
    await registerReadCallbackCall (registerReadCallback Serial) ;;
    dispatchEvent (connectEvent true) ;;
    ret true
  else ret false.

(** [callback?.(arg)]: nothing without a callback; with one, the call
    joins the trace and completes as the callback does. *)
Definition call_optional (callback : option SendCallback) (arg : SendInfo) : M unit :=
  match callback with
  | Some f => fun w => (f (trace w) arg, mkWorld (this w) (trace w ++ [Callback arg])%list)
  | None => ret tt
  end.

(** [send(data, callback)].  The call of the callback on success is
    inside the [try]: if it throws, the [catch] clause runs as it does
    for a failed write. *)
Definition send (data : Bytes) (callback : option SendCallback) : M bool :=
  try_catch
    (await (writeCall data) (fun h => write Serial h data) ;;
     call_optional callback {| info_bytesSent := byteLength data |} ;;
     ret true)
    (fun error =>
       call_optional callback {| info_bytesSent := 0 |} ;;
       ret false).

(** [disconnect()]; the local [closeError] is what the
    [try]/[catch] leaves in it. *)
Definition disconnect : M unit :=
  open <- gets isOpen ;;
  if negb open then ret tt
  else
    modify (set_reading false) ;;
    closeError <-
      try_catch_finally
        (await unregisterReadCallbackCall (unregisterReadCallback Serial) ;;
         await closeConnectionCall (closeConnection Serial) ;;
         ret JS.Null)
        (fun error => ret error)
        (modify (set_isOpen false) ;;
         modify (set_port None) ;;
         dispatchEvent (disconnectEvent true)) ;;
    if JS.truthy closeError then
      throw (JS.Error "Error" "Failed to close serial port" closeError)
    else ret tt.

End Class.

(** ** Concrete transports, tables and inputs *)

(** A transport whose every call resolves, and that grants every
    permission request. *)
Definition Serial_ok : Transport :=
  {| requestSerialPermissions := fun _ _ _ _ => Normal (Some {| granted := true |});
     openConnection := fun _ _ => Normal tt;
     registerReadCallback := fun _ => Normal tt;
     unregisterReadCallback := fun _ => Normal tt;
     closeConnection := fun _ => Normal tt;
     write := fun _ _ => Normal tt |}.

Definition boom : JS.Value := JS.Error "Error" "port busy" JS.Undefined.

(** A transport with no device behind it: every call rejects. *)
Definition Serial_down : Transport :=
  {| requestSerialPermissions := fun _ _ _ _ => Throw boom;
     openConnection := fun _ _ => Throw boom;
     registerReadCallback := fun _ => Throw boom;
     unregisterReadCallback := fun _ => Throw boom;
     closeConnection := fun _ => Throw boom;
     write := fun _ _ => Throw boom |}.

(** As [Serial_ok], but closing the connection rejects. *)
Definition Serial_close_fails : Transport :=
  {| requestSerialPermissions := fun _ _ _ _ => Normal (Some {| granted := true |});
     openConnection := fun _ _ => Normal tt;
     registerReadCallback := fun _ => Normal tt;
     unregisterReadCallback := fun _ => Normal tt;
     closeConnection := fun _ => Throw boom;
     write := fun _ _ => Normal tt |}.

(** A transport that rejects the first permission request it gets and
    grants any later one. *)
Definition Serial_second : Transport :=
  {| requestSerialPermissions := fun h _ _ _ =>
       match h with
       | [] => Throw boom
       | _ => Normal (Some {| granted := true |})
       end;
     openConnection := fun _ _ => Normal tt;
     registerReadCallback := fun _ => Normal tt;
     unregisterReadCallback := fun _ => Normal tt;
     closeConnection := fun _ => Normal tt;
     write := fun _ _ => Normal tt |}.

(** As [Serial_ok], but registering the read callback rejects. *)
Definition Serial_register_fails : Transport :=
  {| requestSerialPermissions := fun _ _ _ _ => Normal (Some {| granted := true |});
     openConnection := fun _ _ => Normal tt;
     registerReadCallback := fun _ => Throw boom;
     unregisterReadCallback := fun _ => Normal tt;
     closeConnection := fun _ => Normal tt;
     write := fun _ _ => Normal tt |}.

Definition names_stm (vid : Z) : option string :=
  if vid =? 1155 then Some "STM Electronics" else None.

Definition no_names (vid : Z) : option string := None.

Definition devices_3 : list (Z * Z) := [(1155, 22336); (11836, 22336); (12619, 22336)].


Definition stm_port : PortDescriptor :=
  {| path := "serial"; displayName := "Betaflight STM Electronics";
     vendorId := 1155; productId := 22336 |}.

(** A consumer callback that returns normally. *)
Definition quiet_callback : SendCallback := fun _ _ => Normal tt.

(** A consumer callback that throws when it is told of bytes sent. *)
Definition throwing_callback : SendCallback :=
  fun _ arg => if info_bytesSent arg =? 0 then Normal tt else Throw boom.

Definition two_bytes : Bytes := [Byte.x01; Byte.x02].

(** ** Vocabulary of the statements *)

(** The invariant of the spec's Connection State: [connectionId] is set
    exactly when [isOpen] is true. *)
Definition connection_invariant (s : CapacitorSerialProtocol) : Prop :=
  connectionId s <> None <-> isOpen s = true.

(** The registry holds descriptors only, no [null]. *)
Definition registry_wf (s : CapacitorSerialProtocol) : Prop :=
  Forall (fun entry => entry <> None) (ports s).

(** The (vendorId, productId) pairs of the descriptors in the registry. *)
Fixpoint registered (l : list (option PortDescriptor)) : list (Z * Z) :=
  match l with
  | [] => []
  | Some p :: rest => (vendorId p, productId p) :: registered rest
  | None :: rest => registered rest
  end.

Definition is_registered (vid pid : Z) (l : list (option PortDescriptor)) : bool :=
  existsb (fun entry => match entry with
                        | Some p => same_device vid pid p
                        | None => false
                        end) l.

(** Whether an answer of the transport to a permission request grants
    the device: a rejection, a [null] response and [granted] false do
    not. *)
Definition answer_grants (a : Completion (option SerialPermissions)) : bool :=
  match a with
  | Normal (Some r) => granted r
  | _ => false
  end.

(** The request made for a known device, as it shows in the trace. *)
Definition request_of (d : Z * Z) : Effect :=
  Invoke (requestSerialPermissionsCall (fst d) (snd d) CDC_ACM_SERIAL_DRIVER).

(** The world once device [d] has been asked about. *)
Definition asked (d : Z * Z) (w : World) : World :=
  mkWorld (this w) (trace w ++ [request_of d])%list.

(** The consumer's callback, when there is one, returns normally. *)
Definition returns_normally (callback : option SendCallback) : Prop :=
  match callback with
  | Some f => forall h arg, f h arg = Normal tt
  | None => True
  end.

Definition callback_calls (callback : option SendCallback) (bytes : Z) : History :=
  match callback with
  | Some _ => [Callback {| info_bytesSent := bytes |}]
  | None => []
  end.

(** The calls the spec's interface and the transport make on the object.
    [handleNewDevice] is not one of them: the class reaches it from
    [requestPermissionDevice] only. *)
Inductive Operation : Type :=
| GetDevices
| RequestPermissionDevice
| HandleDeviceRemoval (vid pid : Z)
| Connect (path : string) (options : option Options)
| Send (data : Bytes) (callback : option SendCallback)
| Disconnect
| ReadCallback (message : option SerialMessage) (error : option JS.Value).

Section Vocabulary.

Variable Serial : Transport.
Variable vendorIdNames : Z -> option string.
Variable serialDevices : list (Z * Z).

(** Whether the transport, asked after history [h], grants device [d]:
    a request that rejects, or resolves with [null] or with [granted]
    false, does not. *)
Definition grants (h : History) (d : Z * Z) : bool :=
  match requestSerialPermissions Serial h (fst d) (snd d) CDC_ACM_SERIAL_DRIVER with
  | Normal (Some r) => granted r
  | _ => false
  end.



(** What a discovery pass may do to the registry and to the consumers:
    [emitted] is what it adds to the trace and [added] what it appends
    to [ports].  Every event it dispatches is "addedDevice" with a
    descriptor that it appended; every entry it appends is a descriptor,
    not [null], whose pair the registry did not hold when the pass began
    (the scan for it ran to the end of a registry without [null] and
    found nothing), is what [createPort] makes for that pair, and is
    announced; at most one entry is appended. *)
Definition discovery_safe (w w' : World) : Prop :=
  exists (emitted : History) (added : list (option PortDescriptor)),
    trace w' = (trace w ++ emitted)%list /\
    ports (this w') = (ports (this w) ++ added)%list /\
    (forall e, In (Dispatch e) emitted ->
               exists p, e = addedDevice (Some p) /\ In (Some p) added) /\
    (forall entry, In entry added ->
                   exists p, entry = Some p /\
                             some_port (vendorId p) (productId p) (ports (this w))
                             = Normal false /\
                             fst (createPort vendorIdNames (vendorId p) (productId p) w)
                             = Normal (Some p) /\
                             In (Dispatch (addedDevice (Some p))) emitted) /\
    (List.length added <= 1)%nat.

(** The label that follows "Betaflight " in a display name: the vendor's
    name when the table has a non-empty one, else the synthesized
    VID/PID text. *)
Definition expected_label (vid pid : Z) : string :=
  match vendorIdNames vid with
  | Some name =>
      if String.eqb name "" then
        "VID:" ++ JS.template_of_number vid ++ " PID:" ++ JS.template_of_number pid
      else name
  | None => "VID:" ++ JS.template_of_number vid ++ " PID:" ++ JS.template_of_number pid
  end.

(** What the [try] of [disconnect] leaves in [closeError] when the
    method is entered after history [h]. *)
Definition close_error (h : History) : JS.Value :=
  match unregisterReadCallback Serial h with
  | Throw e => e
  | Normal _ =>
      match closeConnection Serial (h ++ [Invoke unregisterReadCallbackCall])%list with
      | Throw e => e
      | Normal _ => JS.Null
      end
  end.

(** The transport calls [disconnect] makes: the close is skipped when
    unregistering throws. *)
Definition close_calls (h : History) : History :=
  match unregisterReadCallback Serial h with
  | Throw _ => [Invoke unregisterReadCallbackCall]
  | Normal _ => [Invoke unregisterReadCallbackCall; Invoke closeConnectionCall]
  end.

(** The world after an operation that has run to its completion. *)
Definition perform (op : Operation) (w : World) : World :=
  match op with
  | GetDevices => snd (getDevices Serial vendorIdNames serialDevices w)
  | RequestPermissionDevice =>
      snd (requestPermissionDevice Serial vendorIdNames serialDevices w)
  | HandleDeviceRemoval vid pid => snd (handleDeviceRemoval vid pid w)
  | Connect path options => snd (connect Serial path options w)
  | Send data callback => snd (send Serial data callback w)
  | Disconnect => snd (disconnect Serial w)
  | ReadCallback message error => snd (readCallback message error w)
  end.

End Vocabulary.

(** ** Vocabulary of the further properties *)

(** Any call of a method of the object: the operations above and the two
    methods they leave out. *)
Inductive MethodCall : Type :=
| Public (op : Operation)
| HandleNewDevice (vid pid : Z)
| GetConnectedPort.

Definition is_connect (c : MethodCall) : bool :=
  match c with
  | Public (Connect _ _) => true
  | _ => false
  end.

(** A step of the life of the constructed object. *)
Inductive Step : Type :=
| Method (c : MethodCall)
| ResumePass.

(** The operations through which consumers reach discovery: all of them
    but a direct call of [requestPermissionDevice]. *)
Definition through_getDevices (op : Operation) : bool :=
  match op with
  | RequestPermissionDevice => false
  | _ => true
  end.

(** The steps in which discovery is reached through the constructor and
    [getDevices] only. *)
Definition step_through_getDevices (s : Step) : bool :=
  match s with
  | Method (Public op) => through_getDevices op
  | Method (HandleNewDevice _ _) => false
  | Method GetConnectedPort => true
  | ResumePass => true
  end.

(** The steps that are not a direct call of [handleNewDevice]. *)
Definition no_direct_handleNewDevice (s : Step) : bool :=
  match s with
  | Method (HandleNewDevice _ _) => false
  | _ => true
  end.

(** One for a waiting pass, none without. *)
Definition waiting (o : option Pass) : nat :=
  match o with Some _ => 1%nat | None => 0%nat end.

(** One call of the transport's read handler. *)
Definition Delivery : Type := option SerialMessage * option JS.Value.

(** The chunk a delivery carries, if it carries one. *)
Definition chunk_of (d : Delivery) : option Bytes :=
  match fst d with
  | Some {| data := Some chunk |} => Some chunk
  | _ => None
  end.

Fixpoint delivered_bytes (ds : list Delivery) : Z :=
  match ds with
  | [] => 0
  | d :: rest =>
      match chunk_of d with
      | Some chunk => byteLength chunk + delivered_bytes rest
      | None => delivered_bytes rest
      end
  end.

Fixpoint delivered_events (ds : list Delivery) : History :=
  match ds with
  | [] => []
  | d :: rest =>
      match chunk_of d with
      | Some chunk => Dispatch (receive chunk) :: delivered_events rest
      | None => delivered_events rest
      end
  end.

(** The fields that no method ever sets to anything but what the
    constructor gave them. *)
Definition never_set (s : CapacitorSerialProtocol) : Prop :=
  connected s = false /\
  connectionInfo s = None /\
  port s = None /\
  reading s = false /\
  bytesSent s = 0.

(** How the fields other than [ports], [isOpen] and [connectionId] may
    differ after a call: three never change, [port] and [reading] can
    only be reset, [bytesReceived] can only grow, and the receive
    listener, once registered, stays. *)
Definition evolves (s s' : CapacitorSerialProtocol) : Prop :=
  connected s' = connected s /\
  connectionInfo s' = connectionInfo s /\
  bytesSent s' = bytesSent s /\
  (port s' = port s \/ port s' = None) /\
  (reading s' = reading s \/ reading s' = false) /\
  bytesReceived s <= bytesReceived s' /\
  (receiveListener s = true -> receiveListener s' = true).

Section Calls.

Variable Serial : Transport.
Variable vendorIdNames : Z -> option string.
Variable serialDevices : list (Z * Z).

(** The world after a call, and after a sequence of calls. *)
Definition invoke (c : MethodCall) (w : World) : World :=
  match c with
  | Public op => perform Serial vendorIdNames serialDevices op w
  | HandleNewDevice vid pid => snd (handleNewDevice vendorIdNames vid pid w)
  | GetConnectedPort => snd (getConnectedPort w)
  end.

Definition invoke_all (calls : list MethodCall) (w : World) : World :=
  fold_left (fun w c => invoke c w) calls w.

(** What happens to the constructed object, in order: a method is called
    and runs to its completion, or the pass that the constructor left
    waiting resumes for one turn of its loop. *)
Definition react (s : Step) (st : World * option Pass) : World * option Pass :=
  match s with
  | Method c => (invoke c (fst st), snd st)
  | ResumePass =>
      match snd st with
      | Some p => pass_resume Serial vendorIdNames p (fst st)
      | None => st
      end
  end.

Definition react_all (steps : list Step) (st : World * option Pass)
  : World * option Pass :=
  fold_left (fun st s => react s st) steps st.

(** The world after the transport has made the deliveries [ds]. *)
Definition deliver_all (ds : list Delivery) (w : World) : World :=
  fold_left (fun w d => snd (readCallback (fst d) (snd d) w)) ds w.

End Calls.

(** ** Concrete inputs of the further properties *)

(** As [Serial_ok], but unregistering the read callback rejects. *)
Definition Serial_unregister_fails : Transport :=
  {| requestSerialPermissions := fun _ _ _ _ => Normal (Some {| granted := true |});
     openConnection := fun _ _ => Normal tt;
     registerReadCallback := fun _ => Normal tt;
     unregisterReadCallback := fun _ => Throw boom;
     closeConnection := fun _ => Normal tt;
     write := fun _ _ => Normal tt |}.

(** As [Serial_ok], but closing rejects with [undefined]. *)
Definition Serial_close_rejects_undefined : Transport :=
  {| requestSerialPermissions := fun _ _ _ _ => Normal (Some {| granted := true |});
     openConnection := fun _ _ => Normal tt;
     registerReadCallback := fun _ => Normal tt;
     unregisterReadCallback := fun _ => Normal tt;
     closeConnection := fun _ => Throw JS.Undefined;
     write := fun _ _ => Normal tt |}.


(** A controller as the constructor leaves it, with the given registry. *)
Definition with_ports (l : list (option PortDescriptor)) : World :=
  mkWorld (set_ports l initial) [].

(** An open controller, as a successful [connect("serial")] leaves it. *)
Definition opened : World := snd (connect Serial_ok "serial" None (mkWorld initial [])).

(** A chunk, an error with no message, and a message with no data. *)
Definition three_deliveries : list Delivery :=
  [(Some {| data := Some two_bytes |}, None);
   (None, Some boom);
   (Some {| data := None |}, None)].

(** ** Properties *)

Ltac run :=
  unfold getDevices, loadDevices, requestPermissionDevice, connect, send, disconnect,
    handleNewDevice, createPort, handleDeviceRemoval, readCallback, dispatchEvent,
    handleReceiveBytes, addEventListener_receive, call_optional, try_catch_finally,
    try_catch, await, record, modify, gets, lift, throw, bind, ret;
  cbn.

Ltac traces := repeat rewrite <- app_assoc; cbn; reflexivity.

Section Properties.

Variable Serial : Transport.
Variable vendorIdNames : Z -> option string.
Variable serialDevices : list (Z * Z).

(** *** connect *)

(** The transport's read handler, once the receive listener is
    registered: a message with data is dispatched as "receive" and
    counted, any other call does nothing. *)
Lemma readCallback_receive (chunk : Bytes) (error : option JS.Value) (w : World) :
  receiveListener (this w) = true ->
  readCallback (Some {| data := Some chunk |}) error w =
  (Normal tt,
   mkWorld (set_bytesReceived (bytesReceived (this w) + byteLength chunk) (this w))
           (trace w ++ [Dispatch (receive chunk)])%list).
Proof.
  intros H. run. rewrite H. reflexivity.
Qed.

Lemma readCallback_ports (message : option SerialMessage) (error : option JS.Value)
      (w : World) :
  ports (this (snd (readCallback message error w))) = ports (this w).
Proof.
  destruct message as [[[chunk|]]|]; run; try reflexivity.
  destruct (receiveListener (this w)); reflexivity.
Qed.

(** C4, amended. [connect(path, options)]: when the transport's open
    rejects, it returns false, dispatches "connect" with false and
    leaves every field as it was, so a Closed controller ([isOpen]
    false, [connectionId] unset) stays Closed; when the open resolves,
    it sets [isOpen], sets [connectionId] to [path] and has the receive
    listener registered with the event target; when the registration of
    the read callback with the transport then resolves too, it
    dispatches "connect" with true and returns true, and from then on
    every chunk the transport delivers is dispatched as a "receive"
    event and adds its byte length to [bytesReceived]. *)
Theorem connect_outcome (path : string) (options : option Options) (w : World) :
  let opts := default_options options in
  let '(r, w') := connect Serial path options w in
  match openConnection Serial (trace w) opts with
  | Throw _ =>
      r = Normal false /\
      this w' = this w /\
      (isOpen (this w) = false -> connectionId (this w) = None ->
       isOpen (this w') = false /\ connectionId (this w') = None) /\
      trace w' = (trace w ++ [Invoke (openConnectionCall opts);
                              Dispatch (connectEvent false)])%list
  | Normal _ =>
      isOpen (this w') = true /\
      connectionId (this w') = Some path /\
      receiveListener (this w') = true /\
      ports (this w') = ports (this w) /\
      bytesReceived (this w') = bytesReceived (this w) /\
      bytesSent (this w') = bytesSent (this w) /\
      (resolved (registerReadCallback Serial
                   (trace w ++ [Invoke (openConnectionCall opts)])%list) = true ->
       r = Normal true /\
       trace w' = (trace w ++ [Invoke (openConnectionCall opts);
                               Invoke registerReadCallbackCall;
                               Dispatch (connectEvent true)])%list /\
       forall (chunk : Bytes) (error : option JS.Value),
         let '(r2, w2) := readCallback (Some {| data := Some chunk |}) error w' in
         r2 = Normal tt /\
         trace w2 = (trace w' ++ [Dispatch (receive chunk)])%list /\
         bytesReceived (this w2) = bytesReceived (this w') + byteLength chunk /\
         isOpen (this w2) = true /\ connectionId (this w2) = Some path)
  end.
Proof.
  intros opts. subst opts. run.
  destruct (openConnection Serial (trace w) (default_options options)) as [[]|e]; cbn.
  - destruct (registerReadCallback Serial
                (trace w ++ [Invoke (openConnectionCall (default_options options))])%list)
      as [[]|e]; cbn; repeat split; try congruence; traces.
  - repeat split; try tauto; traces.
Qed.

(** When the open resolves and the registration rejects, [connect]
    throws what the registration rejected with: the controller is open,
    and no "connect" event has been dispatched. *)
Lemma connect_registration_rejects (path : string) (options : option Options) (w : World)
      (e : JS.Value) :
  let opts := default_options options in
  openConnection Serial (trace w) opts = Normal tt ->
  registerReadCallback Serial (trace w ++ [Invoke (openConnectionCall opts)])%list = Throw e ->
  connect Serial path options w =
  (Throw e,
   mkWorld (set_receiveListener true (set_connectionId (Some path) (set_isOpen true (this w))))
           (trace w ++ [Invoke (openConnectionCall opts); Invoke registerReadCallbackCall])%list).
Proof.
  cbn zeta. intros Hopen Hreg. run. rewrite Hopen. cbn. rewrite Hreg. cbn.
  f_equal. f_equal. traces.
Qed.

Lemma connect_ports (path : string) (options : option Options) (w : World) :
  ports (this (snd (connect Serial path options w))) = ports (this w).
Proof.
  run. destruct (openConnection Serial (trace w) (default_options options)) as [[]|e];
    cbn; [|reflexivity].
  destruct (registerReadCallback Serial _) as [[]|e]; reflexivity.
Qed.

(** [connect] keeps the invariant of the Connection State. *)
Lemma connect_preserves_invariant (path : string) (options : option Options) (w : World) :
  connection_invariant (this w) ->
  connection_invariant (this (snd (connect Serial path options w))).
Proof.
  unfold connection_invariant. run.
  destruct (openConnection Serial (trace w) (default_options options)) as [[]|e]; cbn.
  - destruct (registerReadCallback Serial _) as [[]|e]; cbn;
      intros _; (split; [reflexivity|discriminate]).
  - tauto.
Qed.

(** *** send *)

(** C7, amended. [send(data, callback)] changes no field of the
    controller, [bytesSent] included, whatever the callback does; with no
    callback or with one that returns normally, it calls the callback
    with the byte length of [data] and returns true if the transport's
    write resolves, and calls the callback with zero and returns false
    if the write rejects. *)
Theorem send_outcome (data : Bytes) (callback : option SendCallback) (w : World) :
  let '(r, w') := send Serial data callback w in
  this w' = this w /\
  bytesSent (this w') = bytesSent (this w) /\
  (returns_normally callback ->
   match write Serial (trace w) data with
   | Normal _ =>
       r = Normal true /\
       trace w' = (trace w ++ Invoke (writeCall data)
                           :: callback_calls callback (byteLength data))%list
   | Throw _ =>
       r = Normal false /\
       trace w' = (trace w ++ Invoke (writeCall data) :: callback_calls callback 0)%list
   end).
Proof.
  run.
  destruct (write Serial (trace w) data) as [[]|e]; destruct callback as [f|]; cbn.
  - destruct (f (trace w ++ [Invoke (writeCall data)])%list
                {| info_bytesSent := byteLength data |}) as [[]|e] eqn:H1; cbn.
    + split; [reflexivity|]. split; [reflexivity|]. intros _. split; traces.
    + destruct (f ((trace w ++ [Invoke (writeCall data)]) ++
                   [Callback {| info_bytesSent := byteLength data |}])%list
                  {| info_bytesSent := 0 |}) as [[]|e'];
        cbn; (split; [reflexivity|]); (split; [reflexivity|]);
        intros Hcb; rewrite Hcb in H1; discriminate.
  - split; [reflexivity|]. split; [reflexivity|]. intros _. split; traces.
  - destruct (f (trace w ++ [Invoke (writeCall data)])%list {| info_bytesSent := 0 |})
      as [[]|e'] eqn:H1; cbn; (split; [reflexivity|]); (split; [reflexivity|]);
      intros Hcb.
    + split; traces.
    + rewrite Hcb in H1. discriminate.
  - split; [reflexivity|]. split; [reflexivity|]. intros _. split; traces.
Qed.

(** [send] never touches the controller, whatever the callback does. *)
Lemma send_this (data : Bytes) (callback : option SendCallback) (w : World) :
  this (snd (send Serial data callback w)) = this w.
Proof.
  run.
  destruct (write Serial (trace w) data) as [[]|e]; destruct callback as [f|]; cbn;
    try reflexivity.
  - destruct (f _ _) as [[]|e]; cbn; [reflexivity|].
    destruct (f _ _) as [[]|e']; reflexivity.
  - destruct (f _ _) as [[]|e']; reflexivity.
Qed.

(** A callback that throws on the success path is called a second time,
    with zero, by the [catch] clause, and [send] returns false although
    the write resolved. *)
Lemma send_callback_throws (data : Bytes) (f : SendCallback) (e : JS.Value) (w : World) :
  write Serial (trace w) data = Normal tt ->
  (forall h, f h {| info_bytesSent := byteLength data |} = Throw e) ->
  (forall h, f h {| info_bytesSent := 0 |} = Normal tt) ->
  send Serial data (Some f) w =
  (Normal false,
   mkWorld (this w)
           (trace w ++ [Invoke (writeCall data);
                        Callback {| info_bytesSent := byteLength data |};
                        Callback {| info_bytesSent := 0 |}])%list).
Proof.
  intros Hw H1 H2. run. rewrite Hw. cbn. rewrite H1. cbn. rewrite H2.
  f_equal. f_equal. traces.
Qed.


(** *** The registry and its cache *)

(** C5. While the registry is not empty, [getDevices()] returns the
    cached array and changes nothing: the trace stays as it was, so no
    permission request reaches the transport. *)
Theorem getDevices_cached (w : World) :
  ports (this w) <> [] ->
  let '(r, w') := getDevices Serial vendorIdNames serialDevices w in
  r = Normal (ports (this w)) /\ w' = w /\ trace w' = trace w.
Proof.
  intros Hne. run. destruct w as [s h]; cbn in *.
  destruct (ports s) as [|p ps] eqn:Hp; [contradiction|].
  cbn. rewrite Hp. repeat split.
Qed.


(** *** The registry scan *)

Lemma some_port_wf (vid pid : Z) (l : list (option PortDescriptor)) :
  Forall (fun entry => entry <> None) l ->
  some_port vid pid l = Normal (is_registered vid pid l).
Proof.
  induction 1 as [|[p|] l Hx _ IH]; cbn; [reflexivity| |congruence].
  destruct (same_device vid pid p); [reflexivity|exact IH].
Qed.

Lemma some_port_false_wf (vid pid : Z) (l : list (option PortDescriptor)) :
  some_port vid pid l = Normal false ->
  Forall (fun entry => entry <> None) l /\ is_registered vid pid l = false.
Proof.
  induction l as [|[p|] l IH]; cbn; intros H; [split; constructor| |discriminate].
  destruct (same_device vid pid p); [discriminate|].
  destruct (IH H) as [Hwf Hreg]. split; [constructor; [discriminate|exact Hwf]|exact Hreg].
Qed.

(** *** createPort and handleNewDevice *)

Lemma vendor_label_expected (vid pid : Z) :
  vendor_label vendorIdNames vid pid = expected_label vendorIdNames vid pid.
Proof.
  unfold vendor_label, expected_label.
  destruct (vendorIdNames vid) as [name|]; [|reflexivity].
  cbn. now destruct (String.eqb name "").
Qed.

(** [createPort] reads the registry and changes nothing; when it makes a
    descriptor, this is the descriptor. *)
Lemma createPort_some (vid pid : Z) (w w' : World) (p : PortDescriptor) :
  createPort vendorIdNames vid pid w = (Normal (Some p), w') ->
  p = {| path := "serial";
         displayName := "Betaflight " ++ vendor_label vendorIdNames vid pid;
         vendorId := vid;
         productId := pid |} /\
  w' = w.
Proof.
  run. destruct (some_port vid pid (ports (this w))) as [[|]|e]; cbn; intros H;
    inversion H; subst; split; reflexivity.
Qed.

(** C8, amended. Every descriptor [createPort] makes has [path]
    "serial", carries the two ids it was asked for, and has as
    [displayName] the text "Betaflight " followed by the vendor table's
    entry for the vendor id, or by the label VID:x PID:y when the
    table has no entry, or an empty one, for it. *)
Theorem createPort_descriptor (vid pid : Z) (w w' : World) (p : PortDescriptor) :
  createPort vendorIdNames vid pid w = (Normal (Some p), w') ->
  path p = "serial" /\
  displayName p = "Betaflight " ++ expected_label vendorIdNames vid pid /\
  vendorId p = vid /\ productId p = pid /\
  w' = w.
Proof.
  intros H. destruct (createPort_some vid pid w w' p H) as [-> ->].
  cbn [path displayName vendorId productId].
  rewrite vendor_label_expected. repeat split.
Qed.

(** [handleNewDevice] on a pair the registry does not hold and a
    registry without [null]: the descriptor is appended and announced. *)
Lemma handleNewDevice_fresh (vid pid : Z) (w : World) :
  some_port vid pid (ports (this w)) = Normal false ->
  exists p,
    createPort vendorIdNames vid pid w = (Normal (Some p), w) /\
    vendorId p = vid /\ productId p = pid /\
    handleNewDevice vendorIdNames vid pid w =
    (Normal (Some p),
     mkWorld (set_ports (ports (this w) ++ [Some p])%list (this w))
             (trace w ++ [Dispatch (addedDevice (Some p))])%list).
Proof.
  intros H. eexists. run. rewrite H. cbn. repeat split.
Qed.

(** On a pair the registry holds, found before any [null]: the [null]
    that [createPort] returns is pushed and announced all the same. *)
Lemma handleNewDevice_duplicate (vid pid : Z) (w : World) :
  some_port vid pid (ports (this w)) = Normal true ->
  handleNewDevice vendorIdNames vid pid w =
  (Normal None,
   mkWorld (set_ports (ports (this w) ++ [None])%list (this w))
           (trace w ++ [Dispatch (addedDevice None)])%list).
Proof.
  intros H. run. rewrite H. reflexivity.
Qed.

Lemma handleNewDevice_throws (vid pid : Z) (w : World) (e : JS.Value) :
  some_port vid pid (ports (this w)) = Throw e ->
  handleNewDevice vendorIdNames vid pid w = (Throw e, w).
Proof.
  intros H. run. rewrite H. reflexivity.
Qed.

Lemma registered_app (l1 l2 : list (option PortDescriptor)) :
  registered (l1 ++ l2) = (registered l1 ++ registered l2)%list.
Proof.
  induction l1 as [|[p|] l1 IH]; cbn; [reflexivity| |exact IH].
  now rewrite IH.
Qed.

Lemma is_registered_false (vid pid : Z) (l : list (option PortDescriptor)) :
  is_registered vid pid l = false -> ~ In (vid, pid) (registered l).
Proof.
  induction l as [|[p|] l IH]; cbn; [tauto| |exact IH].
  unfold same_device. intros H [Heq|Hin].
  - inversion Heq; subst. rewrite !Z.eqb_refl in H. discriminate.
  - apply orb_false_elim in H. now apply IH.
Qed.

(** Whatever [handleNewDevice] is called with, no two descriptors of the
    registry come to share their (vendorId, productId). *)
Lemma handleNewDevice_no_two_descriptors (vid pid : Z) (w : World) :
  NoDup (registered (ports (this w))) ->
  NoDup (registered (ports (this (snd (handleNewDevice vendorIdNames vid pid w))))).
Proof.
  intros Hnd. destruct (some_port vid pid (ports (this w))) as [[|]|e] eqn:Hsome.
  - rewrite (handleNewDevice_duplicate vid pid w Hsome). cbn.
    rewrite registered_app. cbn. now rewrite app_nil_r.
  - destruct (handleNewDevice_fresh vid pid w Hsome) as (p & _ & Hv & Hp & ->). cbn.
    rewrite registered_app. cbn. rewrite Hv, Hp.
    destruct (some_port_false_wf vid pid _ Hsome) as [_ Hreg].
    apply NoDup_app; [exact Hnd|repeat constructor; intros []|].
    intros x Hin [<-|[]]. exact (is_registered_false vid pid _ Hreg Hin).
  - rewrite (handleNewDevice_throws vid pid w e Hsome). exact Hnd.
Qed.

(** *** Permission negotiation *)

(** One turn of the loop, case by case. *)
Lemma requestPermissionDevice_body_eq (vid pid : Z) (w : World) :
  requestPermissionDevice_body Serial vendorIdNames vid pid w =
  if grants Serial (trace w) (vid, pid) then
    match some_port vid pid (ports (this w)) with
    | Normal true => (Normal (Some true), asked (vid, pid) w)
    | Normal false =>
        (Normal (Some true),
         snd (handleNewDevice vendorIdNames vid pid (asked (vid, pid) w)))
    | Throw _ => (Normal None, asked (vid, pid) w)
    end
  else (Normal None, asked (vid, pid) w).
Proof.
  unfold requestPermissionDevice_body, grants, asked, request_of. run.
  destruct (requestSerialPermissions Serial (trace w) vid pid CDC_ACM_SERIAL_DRIVER)
    as [[[[|]]|]|e]; cbn; try reflexivity.
  destruct (some_port vid pid (ports (this w))) as [[|]|e] eqn:Hsome;
    cbn; rewrite ?Hsome; cbn; reflexivity.
Qed.



(** *** Discovery never feeds [handleNewDevice] a known pair *)

Lemma discovery_safe_refl (w : World) : discovery_safe vendorIdNames w w.
Proof.
  exists [], []. rewrite !app_nil_r. cbn. repeat split; try tauto; lia.
Qed.

Lemma createPort_asked (d : Z * Z) (vid pid : Z) (w : World) :
  fst (createPort vendorIdNames vid pid (asked d w))
  = fst (createPort vendorIdNames vid pid w).
Proof.
  run. destruct (some_port vid pid (ports (this w))) as [[|]|e]; reflexivity.
Qed.

Lemma discovery_safe_asked (d : Z * Z) (w w' : World) :
  discovery_safe vendorIdNames (asked d w) w' -> discovery_safe vendorIdNames w w'.
Proof.
  intros (emitted & added & Htr & Hports & Hev & Hadd & Hlen).
  exists (request_of d :: emitted), added. cbn [asked this trace] in *.
  rewrite <- app_assoc in Htr. repeat split; try assumption.
  - intros e [He|He]; [discriminate He|auto].
  - intros entry Hin. destruct (Hadd entry Hin) as (p & -> & Hsome & Hmade & Hd).
    exists p. rewrite createPort_asked in Hmade. repeat split; try assumption.
    right. exact Hd.
Qed.

Lemma requestPermissionDevice_loop_safe (devices : list (Z * Z)) :
  forall (w : World) (r : Completion bool) (w' : World),
    requestPermissionDevice_loop Serial vendorIdNames devices w = (r, w') ->
    discovery_safe vendorIdNames w w'.
Proof.
  induction devices as [|[vid pid] rest IH]; intros w r w' Hrun.
  - inversion Hrun; subst. apply discovery_safe_refl.
  - cbn [requestPermissionDevice_loop] in Hrun. unfold bind in Hrun.
    rewrite requestPermissionDevice_body_eq in Hrun.
    destruct (grants Serial (trace w) (vid, pid)).
    + destruct (some_port vid pid (ports (this w))) as [[|]|e] eqn:Hsome.
      * unfold ret in Hrun. inversion Hrun; subst.
        apply (discovery_safe_asked (vid, pid)), discovery_safe_refl.
      * destruct (handleNewDevice_fresh vid pid (asked (vid, pid) w) Hsome)
          as (p & Hmade & Hv & Hp & Hn).
        rewrite Hn in Hrun. unfold ret in Hrun. inversion Hrun; subst r w'; clear Hrun.
        apply (discovery_safe_asked (vid, pid)).
        exists [Dispatch (addedDevice (Some p))], [Some p]. cbn.
        repeat split; try lia.
        -- intros e [He|[]]. inversion He; subst. exists p. auto.
        -- intros entry [He|[]]. subst entry. exists p. rewrite Hv, Hp.
           repeat split; auto. exact (f_equal fst Hmade).
      * apply (discovery_safe_asked (vid, pid)), (IH _ _ _ Hrun).
    + apply (discovery_safe_asked (vid, pid)), (IH _ _ _ Hrun).
Qed.

Lemma requestPermissionDevice_safe (w : World) :
  discovery_safe vendorIdNames w
    (snd (requestPermissionDevice Serial vendorIdNames serialDevices w)).
Proof.
  unfold requestPermissionDevice.
  destruct (requestPermissionDevice_loop Serial vendorIdNames serialDevices w)
    as [r w'] eqn:Hrun.
  exact (requestPermissionDevice_loop_safe serialDevices w r w' Hrun).
Qed.

Lemma getDevices_safe (w : World) :
  discovery_safe vendorIdNames w (snd (getDevices Serial vendorIdNames serialDevices w)).
Proof.
  unfold getDevices, loadDevices, bind, gets, ret.
  destruct (0 <? Z.of_nat (List.length (ports (this w)))).
  - apply discovery_safe_refl.
  - pose proof (requestPermissionDevice_safe w) as Hreq.
    destruct (requestPermissionDevice Serial vendorIdNames serialDevices w) as [[b|e] w'];
      exact Hreq.
Qed.

(** *** The pass that the constructor leaves waiting *)

(** The end of a turn of the loop, case by case. *)
Lemma requestPermissionDevice_after_eq (vid pid : Z)
      (a : Completion (option SerialPermissions)) (w : World) :
  requestPermissionDevice_after vendorIdNames vid pid a w =
  if answer_grants a then
    match some_port vid pid (ports (this w)) with
    | Normal true => (Normal (Some true), w)
    | Normal false => (Normal (Some true), snd (handleNewDevice vendorIdNames vid pid w))
    | Throw _ => (Normal None, w)
    end
  else (Normal None, w).
Proof.
  unfold requestPermissionDevice_after, answer_grants. run.
  destruct a as [[[[|]]|]|e]; cbn; try reflexivity.
  destruct (some_port vid pid (ports (this w))) as [[|]|e] eqn:Hsome;
    cbn; rewrite ?Hsome; cbn; reflexivity.
Qed.

(** A turn of the loop is the request followed by the end of the turn. *)
Lemma requestPermissionDevice_body_after (vid pid : Z) (w : World) :
  requestPermissionDevice_body Serial vendorIdNames vid pid w =
  requestPermissionDevice_after vendorIdNames vid pid
    (requestSerialPermissions Serial (trace w) vid pid CDC_ACM_SERIAL_DRIVER)
    (asked (vid, pid) w).
Proof.
  rewrite requestPermissionDevice_body_eq, requestPermissionDevice_after_eq. reflexivity.
Qed.

Lemma resume_times_ended (n : nat) (w : World) :
  resume_times Serial vendorIdNames n (w, None) = (w, None).
Proof. destruct n; reflexivity. Qed.

(** Resumed as many times as devices remain, with nothing in between, a
    pass ends, and it has done what [requestPermissionDevice] does from
    call to return. *)
Lemma resume_times_pass_next (devices : list (Z * Z)) :
  forall w : World,
    resume_times Serial vendorIdNames (List.length devices) (pass_next Serial devices w)
    = (snd (requestPermissionDevice_loop Serial vendorIdNames devices w), None).
Proof.
  induction devices as [|[vid pid] rest IH]; intros w; [reflexivity|].
  cbn [List.length pass_next resume_times snd fst].
  unfold pass_resume. cbn [awaited answer remaining fst snd].
  cbn [requestPermissionDevice_loop]. unfold bind at 1.
  rewrite requestPermissionDevice_body_after. unfold asked, request_of. cbn [fst snd].
  destruct (requestPermissionDevice_after vendorIdNames vid pid
              (requestSerialPermissions Serial (trace w) vid pid CDC_ACM_SERIAL_DRIVER)
              {| this := this w;
                 trace := (trace w ++ [Invoke (requestSerialPermissionsCall
                                                 vid pid CDC_ACM_SERIAL_DRIVER)])%list |})
    as [[[b|]|e] w'] eqn:Hafter.
  - apply resume_times_ended.
  - apply IH.
  - rewrite requestPermissionDevice_after_eq in Hafter.
    destruct (answer_grants _); [|discriminate].
    destruct (some_port vid pid _) as [[|]|e']; discriminate.
Qed.

Lemma constructor_eq :
  constructor Serial serialDevices = pass_next Serial serialDevices (mkWorld initial []).
Proof. reflexivity. Qed.

Lemma turns_left_pass_next (devices : list (Z * Z)) (w : World) :
  turns_left (pass_next Serial devices w) = List.length devices.
Proof. destruct devices as [|[vid pid] rest]; reflexivity. Qed.

(** The constructor's pass, run to its end with no call in between,
    leaves the object as [requestPermissionDevice] run on the new
    object does. *)
Lemma settle_constructor :
  settle Serial vendorIdNames (constructor Serial serialDevices)
  = snd (requestPermissionDevice Serial vendorIdNames serialDevices (mkWorld initial [])).
Proof.
  unfold settle, requestPermissionDevice.
  rewrite constructor_eq, turns_left_pass_next, resume_times_pass_next. reflexivity.
Qed.

Lemma pass_next_safe (devices : list (Z * Z)) (w : World) :
  discovery_safe vendorIdNames w (fst (pass_next Serial devices w)).
Proof.
  destruct devices as [|[vid pid] rest]; cbn [pass_next fst].
  - apply discovery_safe_refl.
  - apply (discovery_safe_asked (vid, pid)), discovery_safe_refl.
Qed.

(** A waiting pass that resumes, in whatever state the object is by
    then, does what a discovery pass may do. *)
Lemma pass_resume_safe (p : Pass) (w : World) :
  discovery_safe vendorIdNames w (fst (pass_resume Serial vendorIdNames p w)).
Proof.
  unfold pass_resume. rewrite requestPermissionDevice_after_eq.
  destruct (answer_grants (answer p)); [|apply pass_next_safe].
  destruct (some_port (fst (awaited p)) (snd (awaited p)) (ports (this w)))
    as [[|]|e] eqn:Hsome; try apply pass_next_safe.
  - apply discovery_safe_refl.
  - destruct (handleNewDevice_fresh (fst (awaited p)) (snd (awaited p)) w Hsome)
      as (q & Hmade & Hv & Hp & Hn).
    rewrite Hn. cbn [fst snd].
    exists [Dispatch (addedDevice (Some q))], [Some q]. cbn.
    repeat split; try lia.
    + intros e [He|[]]. inversion He; subst. exists q. auto.
    + intros entry [He|[]]. subst entry. exists q. rewrite Hv, Hp.
      repeat split; auto. exact (f_equal fst Hmade).
Qed.

(** C9. On the discovery path, [requestPermissionDevice] itself,
    [getDevices], and the pass that the constructor starts through
    [loadDevices], a descriptor is registered only when the scan of the
    registry found no entry for its pair: every "addedDevice" event of
    the pass carries a descriptor, never [null], and no [null] entry is
    appended to the registry.  For the constructor's pass this holds
    when it runs to its end with no call in between, and of each of its
    turns when it resumes later, whatever the object has become. *)
Theorem discovery_never_adds_null (w : World) :
  discovery_safe vendorIdNames w
    (snd (requestPermissionDevice Serial vendorIdNames serialDevices w)) /\
  discovery_safe vendorIdNames w
    (snd (getDevices Serial vendorIdNames serialDevices w)) /\
  discovery_safe vendorIdNames (mkWorld initial [])
    (settle Serial vendorIdNames (constructor Serial serialDevices)) /\
  discovery_safe vendorIdNames (mkWorld initial [])
    (fst (constructor Serial serialDevices)) /\
  (forall p : Pass,
      discovery_safe vendorIdNames w (fst (pass_resume Serial vendorIdNames p w))).
Proof.
  split; [apply requestPermissionDevice_safe|]. split; [apply getDevices_safe|].
  split; [rewrite settle_constructor; apply requestPermissionDevice_safe|].
  split; [apply pass_next_safe|]. intros p. apply pass_resume_safe.
Qed.

(** A discovery pass keeps a registry without [null] that way, and a
    registry without two descriptors of one pair that way. *)
Lemma discovery_safe_wf (w w' : World) :
  discovery_safe vendorIdNames w w' -> registry_wf (this w) -> registry_wf (this w').
Proof.
  intros (emitted & added & _ & Hports & _ & Hadd & _) Hwf.
  unfold registry_wf in *. rewrite Hports. apply Forall_app. split; [exact Hwf|].
  apply Forall_forall. intros entry Hin.
  destruct (Hadd entry Hin) as (p & -> & _). discriminate.
Qed.

(** The descriptors a pass of [getDevices] adds are as [createPort]
    makes them: "serial" and "Betaflight " before the label. *)
Lemma getDevices_descriptors (w : World) (p : PortDescriptor) :
  In (Some p) (ports (this (snd (getDevices Serial vendorIdNames serialDevices w)))) ->
  In (Some p) (ports (this w)) \/
  (path p = "serial" /\
   displayName p
   = "Betaflight " ++ expected_label vendorIdNames (vendorId p) (productId p)).
Proof.
  destruct (getDevices_safe w) as (emitted & added & _ & Hports & _ & Hadd & _).
  rewrite Hports. intros Hin. apply in_app_or in Hin. destruct Hin as [Hin|Hin]; [now left|].
  right. destruct (Hadd _ Hin) as (q & Hq & _ & Hmade & _). inversion Hq; subst q.
  destruct (createPort vendorIdNames (vendorId p) (productId p) w) as [c w0] eqn:Hc.
  cbn in Hmade. subst c. destruct (createPort_some _ _ _ _ _ Hc) as [Hp _].
  rewrite Hp at 1 2. cbn [path displayName]. rewrite vendor_label_expected. split; reflexivity.
Qed.

(** *** disconnect *)

Lemma disconnect_closed (w : World) :
  isOpen (this w) = false -> disconnect Serial w = (Normal tt, w).
Proof.
  intros H. run. rewrite H. reflexivity.
Qed.

(** Guaranteed cleanup, as the code has it: from an open controller,
    however the two transport calls complete, [isOpen] and [reading]
    become false and [port] null, "disconnect" is dispatched with true
    after the transport calls, and then a truthy [closeError] is thrown
    wrapped, with the original as [cause].  [connectionId] is not among
    the fields the [finally] block resets. *)
Lemma disconnect_cleanup (w : World) :
  isOpen (this w) = true ->
  disconnect Serial w =
  ((if JS.truthy (close_error Serial (trace w))
    then Throw (JS.Error "Error" "Failed to close serial port"
                         (close_error Serial (trace w)))
    else Normal tt),
   mkWorld (set_port None (set_isOpen false (set_reading false (this w))))
           (trace w ++ close_calls Serial (trace w)
                   ++ [Dispatch (disconnectEvent true)])%list).
Proof.
  intros H. unfold close_error, close_calls. run. rewrite H. cbn.
  destruct (unregisterReadCallback Serial (trace w)) as [[]|e1]; cbn.
  - destruct (closeConnection Serial (trace w ++ [Invoke unregisterReadCallbackCall])%list)
      as [[]|e2]; cbn.
    + f_equal. f_equal. traces.
    + destruct (JS.truthy e2); cbn; f_equal; f_equal; traces.
  - destruct (JS.truthy e1); cbn; f_equal; f_equal; traces.
Qed.

Lemma disconnect_leaves_connectionId (w : World) :
  connectionId (this (snd (disconnect Serial w))) = connectionId (this w).
Proof.
  destruct (isOpen (this w)) eqn:H.
  - rewrite (disconnect_cleanup w H). reflexivity.
  - rewrite (disconnect_closed w H). reflexivity.
Qed.

Lemma disconnect_ports (w : World) :
  ports (this (snd (disconnect Serial w))) = ports (this w).
Proof.
  destruct (isOpen (this w)) eqn:H.
  - rewrite (disconnect_cleanup w H). reflexivity.
  - rewrite (disconnect_closed w H). reflexivity.
Qed.

(** [disconnect] from an open controller whose [connectionId] is set
    breaks the invariant of the Connection State. *)
Lemma disconnect_breaks_invariant (w : World) :
  isOpen (this w) = true -> connectionId (this w) <> None ->
  ~ connection_invariant (this (snd (disconnect Serial w))).
Proof.
  intros Hopen Hid [Hinv _].
  rewrite disconnect_leaves_connectionId in Hinv.
  rewrite (disconnect_cleanup w Hopen) in Hinv. cbn in Hinv.
  specialize (Hinv Hid). discriminate.
Qed.

(** *** The registry along any run of the operations *)

Lemma splice1_Forall {A} (P : A -> Prop) (i : nat) (l : list A) :
  Forall P l -> Forall P (fst (splice1 i l)).
Proof.
  revert i. induction l as [|x l IH]; intros i H; [destruct i; constructor|].
  inversion H; subst. destruct i as [|i]; cbn; [assumption|].
  specialize (IH i ltac:(assumption)). destruct (splice1 i l) as [rest removed].
  cbn in *. constructor; assumption.
Qed.

Lemma handleDeviceRemoval_wf (vid pid : Z) (w : World) :
  registry_wf (this w) -> registry_wf (this (snd (handleDeviceRemoval vid pid w))).
Proof.
  intros Hwf. unfold registry_wf in *. run.
  destruct (findIndex_port vid pid (ports (this w))) as [index|e]; cbn; [|exact Hwf].
  destruct (index =? -1); cbn; [exact Hwf|].
  pose proof (splice1_Forall _ (Z.to_nat index) _ Hwf) as H.
  destruct (splice1 (Z.to_nat index) (ports (this w))) as [rest removed]. cbn in *.
  destruct removed as [[r|]|]; cbn; exact H.
Qed.

Lemma perform_registry_wf (op : Operation) (w : World) :
  registry_wf (this w) ->
  registry_wf (this (perform Serial vendorIdNames serialDevices op w)).
Proof.
  intros Hwf. destruct op; cbn [perform]; unfold registry_wf.
  - exact (discovery_safe_wf _ _ (getDevices_safe w) Hwf).
  - exact (discovery_safe_wf _ _ (requestPermissionDevice_safe w) Hwf).
  - exact (handleDeviceRemoval_wf vid pid w Hwf).
  - rewrite connect_ports. exact Hwf.
  - rewrite send_this. exact Hwf.
  - rewrite disconnect_ports. exact Hwf.
  - rewrite readCallback_ports. exact Hwf.
Qed.

Lemma react_registry_wf (s : Step) (st : World * option Pass) :
  no_direct_handleNewDevice s = true ->
  registry_wf (this (fst st)) ->
  registry_wf (this (fst (react Serial vendorIdNames serialDevices s st))).
Proof.
  intros Hs Hwf. destruct s as [[op|vid pid|]|]; cbn [react invoke fst]; try discriminate.
  - apply perform_registry_wf, Hwf.
  - exact Hwf.
  - destruct st as [w [p|]]; cbn [fst snd]; [|exact Hwf].
    exact (discovery_safe_wf _ _ (pass_resume_safe p w) Hwf).
Qed.

(** From the constructor on, whatever operations follow and whenever the
    constructor's pass resumes, the registry holds descriptors only, as
    long as [handleNewDevice] is reached from [requestPermissionDevice]
    alone. *)
Lemma reachable_registry_wf (steps : list Step) :
  forallb no_direct_handleNewDevice steps = true ->
  registry_wf
    (this (fst (react_all Serial vendorIdNames serialDevices steps
                          (constructor Serial serialDevices)))).
Proof.
  assert (H0 : registry_wf (this (fst (constructor Serial serialDevices)))).
  { exact (discovery_safe_wf _ _ (pass_next_safe serialDevices (mkWorld initial []))
             (Forall_nil _)). }
  revert H0. generalize (constructor Serial serialDevices).
  unfold react_all. induction steps as [|s steps IH]; intros st Hwf Hall; cbn in *;
    [exact Hwf|].
  apply andb_prop in Hall. destruct Hall as [Hs Hall].
  apply IH; [apply react_registry_wf; assumption|exact Hall].
Qed.

End Properties.

(** ** The code at the inputs where it departs from the spec *)

(** C1 (the code, where closing fails). A controller opened on "serial"
    whose transport rejects [closeConnection]: [disconnect()] sets
    [isOpen] to false and [port] to null, dispatches "disconnect" with
    true after the two transport calls, and throws "Failed to close serial
    port" with the transport's error as cause; [connectionId] is still
    "serial", it is not cleared. *)
Theorem disconnect_close_fails_keeps_connectionId :
  let w1 := snd (connect Serial_close_fails "serial" None (mkWorld initial [])) in
  let '(r, w2) := disconnect Serial_close_fails w1 in
  isOpen (this w1) = true /\
  r = Throw (JS.Error "Error" "Failed to close serial port" boom) /\
  isOpen (this w2) = false /\
  port (this w2) = None /\
  trace w2 = (trace w1 ++ [Invoke unregisterReadCallbackCall;
                           Invoke closeConnectionCall;
                           Dispatch (disconnectEvent true)])%list /\
  connectionId (this w2) = Some "serial" /\
  connectionId (this w2) <> None /\
  fst (getConnectedPort w2) = Normal (Some "serial").
Proof.
  cbn. repeat split. discriminate.
Qed.

(** C2 (the code, after a disconnect). The invariant holds for the
    constructed object and after a successful [connect("serial")], where
    [isOpen] is true and [connectionId] is "serial"; after the
    [disconnect()] that follows, on a transport where every call
    resolves, [isOpen] is false and [connectionId] is still "serial":
    the invariant no longer holds. *)
Theorem disconnect_breaks_connection_invariant :
  let w0 := mkWorld initial [] in
  let w1 := snd (connect Serial_ok "serial" None w0) in
  let '(r, w2) := disconnect Serial_ok w1 in
  connection_invariant (this w0) /\
  connection_invariant (this w1) /\
  isOpen (this w1) = true /\ connectionId (this w1) = Some "serial" /\
  r = Normal tt /\
  isOpen (this w2) = false /\
  connectionId (this w2) = Some "serial" /\
  ~ connection_invariant (this w2).
Proof.
  cbn. unfold connection_invariant. cbn. repeat split; try congruence.
  intros [H _]. assert (false = true) by (apply H; discriminate). discriminate.
Qed.

(** C3 (the code, on a duplicate). [handleNewDevice(1155, 22336)] called
    a second time returns null, but it has pushed that null on [ports]
    and dispatched "addedDevice" with null as detail; after that a call
    for another pair throws a TypeError, from the scan that meets the
    null entry. *)
Theorem handleNewDevice_duplicate_pushes_null :
  let w1 := snd (handleNewDevice names_stm 1155 22336 (mkWorld initial [])) in
  let '(r, w2) := handleNewDevice names_stm 1155 22336 w1 in
  ports (this w1) = [Some stm_port] /\
  r = Normal None /\
  ports (this w2) = [Some stm_port; None] /\
  ports (this w2) <> ports (this w1) /\
  trace w2 = (trace w1 ++ [Dispatch (addedDevice None)])%list /\
  handleNewDevice names_stm 11836 22336 w2 = (Throw (JS.TypeError "vendorId"), w2).
Proof.
  cbn. repeat split. discriminate.
Qed.

(** C8 (counterexample). Discovery over the one known device
    (0x0483, 0x5740), granted: the descriptor's [displayName] is
    "Betaflight STM Electronics", not the vendor table's entry
    "STM Electronics"; and with no entry in the table it is
    "Betaflight VID:1155 PID:22336", not the label "VID:1155 PID:22336". *)
Lemma displayName_is_not_the_vendor_name :
  (exists p w',
      getDevices Serial_ok names_stm [(1155, 22336)] (mkWorld initial [])
      = (Normal [Some p], w') /\
      path p = "serial" /\
      names_stm (vendorId p) = Some "STM Electronics" /\
      displayName p <> "STM Electronics") /\
  (exists p w',
      getDevices Serial_ok no_names [(1155, 22336)] (mkWorld initial [])
      = (Normal [Some p], w') /\
      no_names (vendorId p) = None /\
      displayName p <> "VID:1155 PID:22336").
Proof.
  split; do 2 eexists; (split; [reflexivity|]); cbn; repeat split; discriminate.
Qed.

(** C4 (counterexample). The open resolves and the registration of the
    read callback rejects: [connect("serial")] does not return true and
    dispatches no "connect" event; it throws what the registration
    rejected with, and leaves the controller open on "serial". *)
Lemma connect_throws_when_registration_rejects :
  let '(r, w') := connect Serial_register_fails "serial" None (mkWorld initial []) in
  openConnection Serial_register_fails [] (default_options None) = Normal tt /\
  r = Throw boom /\
  r <> Normal true /\
  isOpen (this w') = true /\
  connectionId (this w') = Some "serial" /\
  trace w' = [Invoke (openConnectionCall {| baudRate := 115200 |});
              Invoke registerReadCallbackCall] /\
  ~ In (Dispatch (connectEvent true)) (trace w').
Proof.
  cbn. repeat split; try discriminate. intros [H|[H|[]]]; discriminate.
Qed.


(** C7 (counterexample). The write resolves and the callback throws when
    it is told of the two bytes sent: [send] calls it a second time, with
    zero, and returns false. *)
Lemma send_returns_false_when_callback_throws :
  let '(r, w') := send Serial_ok two_bytes (Some throwing_callback) (mkWorld initial []) in
  write Serial_ok [] two_bytes = Normal tt /\
  r = Normal false /\
  r <> Normal true /\
  trace w' = [Invoke (writeCall two_bytes);
              Callback {| info_bytesSent := 2 |};
              Callback {| info_bytesSent := 0 |}].
Proof.
  cbn. repeat split. discriminate.
Qed.

(** ** Instances at concrete inputs *)

Lemma connect_outcome_witness :
  resolved (registerReadCallback Serial_ok
              ([] ++ [Invoke (openConnectionCall (default_options None))])%list) = true /\
  fst (connect Serial_ok "serial" None (mkWorld initial [])) = Normal true /\
  connect Serial_down "serial" None (mkWorld initial [])
  = (Normal false,
     mkWorld initial [Invoke (openConnectionCall {| baudRate := 115200 |});
                      Dispatch (connectEvent false)]).
Proof.
  split; [reflexivity|]. split.
  - pose proof (connect_outcome Serial_ok "serial" None (mkWorld initial [])) as H.
    cbn zeta in H.
    destruct (connect Serial_ok "serial" None (mkWorld initial [])) as [r w'].
    cbn in H. destruct H as (_ & _ & _ & _ & _ & _ & H).
    destruct (H eq_refl) as (-> & _). reflexivity.
  - pose proof (connect_outcome Serial_down "serial" None (mkWorld initial [])) as H.
    cbn zeta in H.
    destruct (connect Serial_down "serial" None (mkWorld initial [])) as [r [s h]].
    cbn in H. destruct H as (-> & -> & _ & ->). reflexivity.
Defined.

Lemma getDevices_cached_witness :
  let w := mkWorld (set_ports [Some stm_port] initial) [] in
  ports (this w) <> [] /\
  let '(r, w') := getDevices Serial_down names_stm devices_3 w in
  r = Normal (ports (this w)) /\ w' = w /\ trace w' = trace w.
Proof.
  split.
  - cbn. discriminate.
  - apply (getDevices_cached Serial_down names_stm devices_3). cbn. discriminate.
Defined.


Lemma createPort_descriptor_witness :
  createPort names_stm 1155 22336 (mkWorld initial [])
  = (Normal (Some stm_port), mkWorld initial []) /\
  path stm_port = "serial" /\
  displayName stm_port = "Betaflight " ++ expected_label names_stm 1155 22336 /\
  vendorId stm_port = 1155 /\ productId stm_port = 22336 /\
  mkWorld initial [] = mkWorld initial [].
Proof.
  split.
  - reflexivity.
  - apply (createPort_descriptor names_stm 1155 22336 (mkWorld initial []) (mkWorld initial [])).
    reflexivity.
Defined.

Lemma send_outcome_witness :
  let w := mkWorld initial [] in
  returns_normally (Some quiet_callback) /\
  let '(r, w') := send Serial_down two_bytes (Some quiet_callback) w in
  r = Normal false /\
  this w' = this w /\
  trace w' = (trace w ++ Invoke (writeCall two_bytes)
                      :: callback_calls (Some quiet_callback) 0)%list.
Proof.
  assert (Hq : returns_normally (Some quiet_callback)) by (intros h arg; reflexivity).
  split; [exact Hq|].
  pose proof (send_outcome Serial_down two_bytes (Some quiet_callback) (mkWorld initial []))
    as H.
  destruct (send Serial_down two_bytes (Some quiet_callback) (mkWorld initial [])) as [r w'].
  destruct H as (Hthis & _ & H). destruct (H Hq) as [Hr Htr].
  split; [exact Hr|]. split; [exact Hthis|exact Htr].
Defined.


(** ** Further properties: removal from the registry *)

Section Removal.

Variable vendorIdNames : Z -> option string.

(** [findIndex] and [some] scan alike: where [some] finds nothing and
    meets no [null], [findIndex] answers -1. *)
Lemma findIndex_port_absent (vid pid : Z) (l : list (option PortDescriptor)) :
  some_port vid pid l = Normal false -> findIndex_port vid pid l = Normal (-1).
Proof.
  induction l as [|[p|] l IH]; cbn; intros H; [reflexivity| |discriminate].
  destruct (same_device vid pid p); [discriminate|].
  rewrite (IH H). reflexivity.
Qed.

Lemma findIndex_port_nonneg (vid pid : Z) (l : list (option PortDescriptor)) (i : Z) :
  findIndex_port vid pid l = Normal i -> i = -1 \/ 0 <= i.
Proof.
  revert i. induction l as [|[p|] l IH]; cbn; intros i H.
  - inversion H. now left.
  - destruct (same_device vid pid p); [inversion H; right; lia|].
    destruct (findIndex_port vid pid l) as [j|e]; [|discriminate].
    inversion H; subst. destruct (IH j eq_refl) as [->|Hj]; [now left|].
    right. destruct (j =? -1) eqn:E; lia.
  - discriminate.
Qed.

(** The index [findIndex] answers is that of the first entry for the
    pair, with no [null] before it. *)
Lemma findIndex_port_found (vid pid : Z) (l : list (option PortDescriptor)) (i : Z) :
  findIndex_port vid pid l = Normal i -> i <> -1 ->
  exists before p after,
    l = (before ++ Some p :: after)%list /\
    i = Z.of_nat (List.length before) /\
    some_port vid pid before = Normal false /\
    same_device vid pid p = true.
Proof.
  revert i. induction l as [|[p|] l IH]; cbn; intros i H Hi.
  - inversion H. congruence.
  - destruct (same_device vid pid p) eqn:Hsame.
    + inversion H; subst. exists [], p, l. repeat split. exact Hsame.
    + destruct (findIndex_port vid pid l) as [j|e] eqn:Hj; [|discriminate].
      inversion H; subst; clear H.
      destruct (j =? -1) eqn:E; [congruence|].
      apply Z.eqb_neq in E.
      destruct (IH j eq_refl E) as (before & q & after & -> & -> & Hb & Hq).
      exists (Some p :: before), q, after. cbn [app List.length some_port].
      rewrite Hsame. repeat split; try assumption. lia.
  - discriminate.
Qed.

Lemma findIndex_port_first (vid pid : Z) (before after : list (option PortDescriptor))
      (p : PortDescriptor) :
  some_port vid pid before = Normal false ->
  same_device vid pid p = true ->
  findIndex_port vid pid (before ++ Some p :: after)
  = Normal (Z.of_nat (List.length before)).
Proof.
  intros Hb Hp. induction before as [|[q|] before IH]; cbn in *.
  - rewrite Hp. reflexivity.
  - destruct (same_device vid pid q); [discriminate|].
    rewrite (IH Hb). destruct (Z.of_nat (List.length before) =? -1) eqn:E.
    + apply Z.eqb_eq in E. lia.
    + f_equal. lia.
  - discriminate.
Qed.

Lemma splice1_app {A} (before after : list A) (x : A) :
  splice1 (List.length before) (before ++ x :: after) = ((before ++ after)%list, Some x).
Proof.
  induction before as [|y before IH]; cbn; [reflexivity|]. now rewrite IH.
Qed.

(** What [handleDeviceRemoval] does when the scan finds the pair at
    [p], after [before]. *)
Lemma handleDeviceRemoval_found (vid pid : Z) (w : World)
      (before after : list (option PortDescriptor)) (p : PortDescriptor) :
  ports (this w) = (before ++ Some p :: after)%list ->
  some_port vid pid before = Normal false ->
  same_device vid pid p = true ->
  handleDeviceRemoval vid pid w =
  (Normal tt,
   mkWorld (set_ports (before ++ after)%list (this w))
           (trace w ++ [Dispatch (removedDevice (Some p))])%list).
Proof.
  intros Hports Hb Hp. run. rewrite Hports, (findIndex_port_first _ _ _ _ _ Hb Hp). cbn.
  destruct (Z.of_nat (List.length before) =? -1) eqn:E; [apply Z.eqb_eq in E; lia|].
  cbn. rewrite Hports, Nat2Z.id, splice1_app. reflexivity.
Qed.

(** X1. [handleDeviceRemoval] for a pair that the registry, free of
    [null], does not hold: nothing changes and no event is dispatched. *)
Theorem handleDeviceRemoval_absent (vid pid : Z) (w : World) :
  registry_wf (this w) ->
  is_registered vid pid (ports (this w)) = false ->
  handleDeviceRemoval vid pid w = (Normal tt, w).
Proof.
  intros Hwf Hreg. run.
  rewrite (findIndex_port_absent vid pid (ports (this w))).
  - cbn. destruct w; reflexivity.
  - rewrite <- Hreg. apply some_port_wf. exact Hwf.
Qed.



(** X4. [handleDeviceRemoval] never removes a [null] entry: one that is
    in the registry before the call is in it after the call, whatever
    the pair asked for. *)
Theorem handleDeviceRemoval_keeps_null (vid pid : Z) (w : World) :
  In None (ports (this w)) ->
  In None (ports (this (snd (handleDeviceRemoval vid pid w)))).
Proof.
  intros Hin.
  destruct (findIndex_port vid pid (ports (this w))) as [i|e] eqn:Hfind.
  - destruct (Z.eq_dec i (-1)) as [->|Hi].
    + run. rewrite Hfind. exact Hin.
    + destruct (findIndex_port_found vid pid _ i Hfind Hi)
        as (before & p & after & Hports & _ & Hb & Hp).
      rewrite (handleDeviceRemoval_found vid pid w before after p Hports Hb Hp). cbn.
      rewrite Hports in Hin. apply in_app_or in Hin. apply in_or_app.
      destruct Hin as [Hin|[Hin|Hin]]; [now left|discriminate|now right].
  - run. rewrite Hfind. exact Hin.
Qed.

End Removal.

(** ** Further properties: what a call can change *)

Section Frame.

Variable Serial : Transport.
Variable vendorIdNames : Z -> option string.
Variable serialDevices : list (Z * Z).

Lemma set_ports_same (s : CapacitorSerialProtocol) : set_ports (ports s) s = s.
Proof. destruct s; reflexivity. Qed.

Lemma set_ports_twice (l l' : list (option PortDescriptor)) (s : CapacitorSerialProtocol) :
  set_ports l (set_ports l' s) = set_ports l s.
Proof. reflexivity. Qed.

(** A negotiation pass assigns no field but [ports]. *)
Lemma requestPermissionDevice_loop_only_ports (devices : list (Z * Z)) :
  forall (w : World) (r : Completion bool) (w' : World),
    requestPermissionDevice_loop Serial vendorIdNames devices w = (r, w') ->
    this w' = set_ports (ports (this w')) (this w).
Proof.
  induction devices as [|[vid pid] rest IH]; intros w r w' Hrun.
  - inversion Hrun; subst. symmetry. apply set_ports_same.
  - cbn [requestPermissionDevice_loop] in Hrun. unfold bind in Hrun.
    rewrite requestPermissionDevice_body_eq in Hrun.
    destruct (grants Serial (trace w) (vid, pid)).
    + destruct (some_port vid pid (ports (this w))) as [[|]|e] eqn:Hsome.
      * unfold ret in Hrun. inversion Hrun; subst. symmetry. apply set_ports_same.
      * destruct (handleNewDevice_fresh vendorIdNames vid pid (asked (vid, pid) w) Hsome)
          as (p & _ & _ & _ & Hn).
        rewrite Hn in Hrun. unfold ret in Hrun. inversion Hrun; subst r w'. reflexivity.
      * exact (IH _ _ _ Hrun).
    + exact (IH _ _ _ Hrun).
Qed.

Lemma requestPermissionDevice_only_ports (w : World) :
  let w' := snd (requestPermissionDevice Serial vendorIdNames serialDevices w) in
  this w' = set_ports (ports (this w')) (this w).
Proof.
  cbn zeta. unfold requestPermissionDevice.
  destruct (requestPermissionDevice_loop Serial vendorIdNames serialDevices w)
    as [r w'] eqn:Hrun.
  exact (requestPermissionDevice_loop_only_ports serialDevices w r w' Hrun).
Qed.

Lemma getDevices_only_ports (w : World) :
  let w' := snd (getDevices Serial vendorIdNames serialDevices w) in
  this w' = set_ports (ports (this w')) (this w).
Proof.
  cbn zeta. unfold getDevices, loadDevices, bind, gets, ret.
  destruct (0 <? Z.of_nat (List.length (ports (this w)))).
  - symmetry. apply set_ports_same.
  - pose proof (requestPermissionDevice_only_ports w) as H. cbn zeta in H.
    destruct (requestPermissionDevice Serial vendorIdNames serialDevices w) as [[b|e] w'];
      exact H.
Qed.

Lemma handleDeviceRemoval_only_ports (vid pid : Z) (w : World) :
  let w' := snd (handleDeviceRemoval vid pid w) in
  this w' = set_ports (ports (this w')) (this w).
Proof.
  cbn zeta.
  destruct (findIndex_port vid pid (ports (this w))) as [i|e] eqn:Hfind.
  - destruct (Z.eq_dec i (-1)) as [->|Hi].
    + run. rewrite Hfind. symmetry. apply set_ports_same.
    + destruct (findIndex_port_found vid pid _ i Hfind Hi)
        as (before & p & after & Hports & _ & Hb & Hp).
      rewrite (handleDeviceRemoval_found vid pid w before after p Hports Hb Hp).
      reflexivity.
  - run. rewrite Hfind. symmetry. apply set_ports_same.
Qed.

Lemma handleNewDevice_only_ports (vid pid : Z) (w : World) :
  let w' := snd (handleNewDevice vendorIdNames vid pid w) in
  this w' = set_ports (ports (this w')) (this w).
Proof.
  cbn zeta. destruct (some_port vid pid (ports (this w))) as [[|]|e] eqn:Hsome.
  - rewrite (handleNewDevice_duplicate vendorIdNames vid pid w Hsome). reflexivity.
  - destruct (handleNewDevice_fresh vendorIdNames vid pid w Hsome) as (p & _ & _ & _ & ->).
    reflexivity.
  - rewrite (handleNewDevice_throws vendorIdNames vid pid w e Hsome).
    symmetry. apply set_ports_same.
Qed.

Lemma evolves_refl (s : CapacitorSerialProtocol) : evolves s s.
Proof. unfold evolves. repeat split; auto. lia. Qed.

Lemma evolves_trans (s1 s2 s3 : CapacitorSerialProtocol) :
  evolves s1 s2 -> evolves s2 s3 -> evolves s1 s3.
Proof.
  unfold evolves. intros (A1 & A2 & A3 & A4 & A5 & A6 & A7) (B1 & B2 & B3 & B4 & B5 & B6 & B7).
  repeat split; try congruence; try lia; auto.
  - destruct B4 as [B4|B4]; [rewrite B4; exact A4|now right].
  - destruct B5 as [B5|B5]; [rewrite B5; exact A5|now right].
Qed.

Lemma evolves_only_ports (s s' : CapacitorSerialProtocol) :
  s' = set_ports (ports s') s -> evolves s s'.
Proof.
  intros ->. unfold evolves. cbn. repeat split; auto. lia.
Qed.

Lemma byteLength_nonneg (chunk : Bytes) : 0 <= byteLength chunk.
Proof. unfold byteLength. lia. Qed.

Lemma invoke_evolves (c : MethodCall) (w : World) :
  evolves (this w) (this (invoke Serial vendorIdNames serialDevices c w)).
Proof.
  destruct c as [op|vid pid|]; cbn [invoke].
  - destruct op; cbn [perform].
    + apply evolves_only_ports, getDevices_only_ports.
    + apply evolves_only_ports, requestPermissionDevice_only_ports.
    + apply evolves_only_ports, handleDeviceRemoval_only_ports.
    + run. destruct (openConnection Serial (trace w) (default_options options)) as [[]|e];
        cbn; [destruct (registerReadCallback Serial _) as [[]|e]; cbn|];
        unfold evolves; cbn; repeat split; auto; lia.
    + rewrite send_this. apply evolves_refl.
    + destruct (isOpen (this w)) eqn:Hopen.
      * rewrite (disconnect_cleanup Serial w Hopen). unfold evolves. cbn.
        repeat split; auto. lia.
      * rewrite (disconnect_closed Serial w Hopen). apply evolves_refl.
    + destruct message as [[[chunk|]]|]; run; try apply evolves_refl.
      destruct (receiveListener (this w)) eqn:Hl; cbn; [|apply evolves_refl].
      pose proof (byteLength_nonneg chunk).
      unfold evolves. cbn. repeat split; auto. lia.
  - apply evolves_only_ports, handleNewDevice_only_ports.
  - apply evolves_refl.
Qed.

Lemma invoke_all_evolves (calls : list MethodCall) (w : World) :
  evolves (this w) (this (invoke_all Serial vendorIdNames serialDevices calls w)).
Proof.
  revert w. induction calls as [|c calls IH]; intros w; cbn; [apply evolves_refl|].
  exact (evolves_trans _ _ _ (invoke_evolves c w) (IH _)).
Qed.

Lemma pass_next_this (devices : list (Z * Z)) (w : World) :
  this (fst (pass_next Serial devices w)) = this w.
Proof. destruct devices as [|[vid pid] rest]; reflexivity. Qed.

(** A turn of a waiting pass assigns no field but [ports]. *)
Lemma pass_resume_only_ports (p : Pass) (w : World) :
  let w' := fst (pass_resume Serial vendorIdNames p w) in
  this w' = set_ports (ports (this w')) (this w).
Proof.
  cbn zeta. unfold pass_resume. rewrite requestPermissionDevice_after_eq.
  destruct (answer_grants (answer p));
    [|rewrite pass_next_this; symmetry; apply set_ports_same].
  destruct (some_port (fst (awaited p)) (snd (awaited p)) (ports (this w)))
    as [[|]|e] eqn:Hsome;
    try (rewrite pass_next_this; symmetry; apply set_ports_same).
  - symmetry. apply set_ports_same.
  - destruct (handleNewDevice_fresh vendorIdNames _ _ w Hsome) as (q & _ & _ & _ & ->).
    reflexivity.
Qed.

Lemma react_evolves (s : Step) (st : World * option Pass) :
  evolves (this (fst st)) (this (fst (react Serial vendorIdNames serialDevices s st))).
Proof.
  destruct s as [c|]; cbn [react fst].
  - apply invoke_evolves.
  - destruct st as [w [p|]]; cbn [fst snd]; [|apply evolves_refl].
    apply evolves_only_ports, pass_resume_only_ports.
Qed.

Lemma react_all_evolves (steps : list Step) (st : World * option Pass) :
  evolves (this (fst st))
          (this (fst (react_all Serial vendorIdNames serialDevices steps st))).
Proof.
  revert st. induction steps as [|s steps IH]; intros st; cbn; [apply evolves_refl|].
  exact (evolves_trans _ _ _ (react_evolves s st) (IH _)).
Qed.

Lemma constructor_this : this (fst (constructor Serial serialDevices)) = initial.
Proof. exact (pass_next_this serialDevices (mkWorld initial [])). Qed.

(** X5. From construction on, whatever methods are called and with
    whatever arguments, and whenever the constructor's pass resumes,
    five fields keep the constructor's value: [connected] stays false,
    [connectionInfo] and [port] stay null, [reading] stays false and
    [bytesSent] stays 0. *)
Theorem fields_never_set (steps : list Step) :
  never_set
    (this (fst (react_all Serial vendorIdNames serialDevices steps
                          (constructor Serial serialDevices)))).
Proof.
  pose proof (react_all_evolves steps (constructor Serial serialDevices))
    as (H1 & H2 & H3 & H4 & H5 & _).
  rewrite constructor_this in H1, H2, H3, H4, H5. cbn in H1, H2, H3, H4, H5.
  unfold never_set. repeat split; try assumption; tauto.
Qed.

(** X6. [bytesReceived] never decreases: no method resets it or takes
    from it, whatever the sequence of calls. *)
Theorem bytesReceived_never_decreases (calls : list MethodCall) (w : World) :
  bytesReceived (this w)
  <= bytesReceived (this (invoke_all Serial vendorIdNames serialDevices calls w)).
Proof.
  apply (invoke_all_evolves calls w).
Qed.

(** X7. The receive listener is never removed: once it is registered,
    after any calls, a [disconnect] among them included, a chunk that the
    transport delivers is still dispatched as "receive" and added to
    [bytesReceived]. *)
Theorem receive_counted_after_any_calls (calls : list MethodCall) (w : World)
        (chunk : Bytes) (error : option JS.Value) :
  receiveListener (this w) = true ->
  let w1 := invoke_all Serial vendorIdNames serialDevices calls w in
  let '(r, w2) := readCallback (Some {| data := Some chunk |}) error w1 in
  r = Normal tt /\
  trace w2 = (trace w1 ++ [Dispatch (receive chunk)])%list /\
  bytesReceived (this w2) = bytesReceived (this w1) + byteLength chunk /\
  bytesReceived (this w) + byteLength chunk <= bytesReceived (this w2).
Proof.
  intros Hl. cbn zeta.
  pose proof (invoke_all_evolves calls w) as (_ & _ & _ & _ & _ & Hb & Hkeep).
  rewrite (readCallback_receive chunk error _ (Hkeep Hl)). cbn.
  repeat split. lia.
Qed.

Lemma invoke_connectionId (c : MethodCall) (w : World) :
  is_connect c = false ->
  connectionId (this (invoke Serial vendorIdNames serialDevices c w))
  = connectionId (this w).
Proof.
  intros Hc. destruct c as [op|vid pid|]; cbn [invoke].
  - destruct op; cbn [perform]; try discriminate.
    + pose proof (getDevices_only_ports w) as H. cbn zeta in H. now rewrite H.
    + pose proof (requestPermissionDevice_only_ports w) as H. cbn zeta in H. now rewrite H.
    + pose proof (handleDeviceRemoval_only_ports vid pid w) as H. cbn zeta in H. now rewrite H.
    + now rewrite send_this.
    + apply disconnect_leaves_connectionId.
    + destruct message as [[[chunk|]]|]; run; try reflexivity.
      destruct (receiveListener (this w)); reflexivity.
  - pose proof (handleNewDevice_only_ports vid pid w) as H. cbn zeta in H. now rewrite H.
  - reflexivity.
Qed.

Lemma invoke_all_connectionId (calls : list MethodCall) :
  forall w : World,
    forallb (fun c => negb (is_connect c)) calls = true ->
    connectionId (this (invoke_all Serial vendorIdNames serialDevices calls w))
    = connectionId (this w).
Proof.
  induction calls as [|c calls IH]; intros w Hall; [reflexivity|].
  cbn [forallb] in Hall. apply andb_prop in Hall. destruct Hall as [Hc Hall].
  change (invoke_all Serial vendorIdNames serialDevices (c :: calls) w)
    with (invoke_all Serial vendorIdNames serialDevices calls
                     (invoke Serial vendorIdNames serialDevices c w)).
  rewrite (IH _ Hall). apply invoke_connectionId. now destruct (is_connect c).
Qed.

(** X8. Only [connect] changes what [getConnectedPort()] returns: after
    any calls with no [connect] among them, [disconnect] included, it
    returns what it returned before. *)
Theorem getConnectedPort_changed_only_by_connect (calls : list MethodCall) (w : World) :
  forallb (fun c => negb (is_connect c)) calls = true ->
  fst (getConnectedPort (invoke_all Serial vendorIdNames serialDevices calls w))
  = fst (getConnectedPort w).
Proof.
  intros Hall. unfold getConnectedPort, gets. cbn [fst]. f_equal.
  exact (invoke_all_connectionId calls w Hall).
Qed.

End Frame.

(** ** Further properties: the registry along any run *)

Section Registry.

Variable Serial : Transport.
Variable vendorIdNames : Z -> option string.
Variable serialDevices : list (Z * Z).

Lemma getDevices_nonempty (w : World) :
  ports (this w) <> [] ->
  snd (getDevices Serial vendorIdNames serialDevices w) = w.
Proof.
  intros Hne. run. destruct w as [s h]; cbn in *.
  destruct (ports s) as [|p ps] eqn:Hp; [contradiction|]. reflexivity.
Qed.

Lemma discovery_safe_no_two (w w' : World) :
  discovery_safe vendorIdNames w w' ->
  NoDup (registered (ports (this w))) -> NoDup (registered (ports (this w'))).
Proof.
  intros (emitted & added & _ & Hports & _ & Hadd & Hlen) Hnd.
  rewrite Hports, registered_app.
  destruct added as [|entry [|entry' added]]; cbn in Hlen; try lia.
  - cbn. now rewrite app_nil_r.
  - destruct (Hadd entry (or_introl eq_refl)) as (p & -> & Hsome & _).
    destruct (some_port_false_wf _ _ _ Hsome) as [_ Hreg]. cbn.
    apply NoDup_app; [exact Hnd|repeat constructor; intros []|].
    intros x Hin [<-|[]]. exact (is_registered_false vendorIdNames _ _ _ Hreg Hin).
Qed.

Lemma handleDeviceRemoval_no_two (vid pid : Z) (w : World) :
  NoDup (registered (ports (this w))) ->
  NoDup (registered (ports (this (snd (handleDeviceRemoval vid pid w))))).
Proof.
  intros Hnd.
  destruct (findIndex_port vid pid (ports (this w))) as [i|e] eqn:Hfind.
  - destruct (Z.eq_dec i (-1)) as [->|Hi].
    + run. rewrite Hfind. exact Hnd.
    + destruct (findIndex_port_found vid pid _ i Hfind Hi)
        as (before & p & after & Hports & _ & Hb & Hp).
      rewrite (handleDeviceRemoval_found vid pid w before after p Hports Hb Hp). cbn.
      rewrite Hports, registered_app in Hnd. cbn in Hnd.
      rewrite registered_app. exact (NoDup_remove_1 _ _ _ Hnd).
  - run. rewrite Hfind. exact Hnd.
Qed.

Lemma invoke_no_two (c : MethodCall) (w : World) :
  NoDup (registered (ports (this w))) ->
  NoDup (registered (ports (this (invoke Serial vendorIdNames serialDevices c w)))).
Proof.
  intros Hnd. destruct c as [op|vid pid|]; cbn [invoke].
  - destruct op; cbn [perform].
    + exact (discovery_safe_no_two _ _ (getDevices_safe Serial vendorIdNames serialDevices w) Hnd).
    + exact (discovery_safe_no_two _ _
               (requestPermissionDevice_safe Serial vendorIdNames serialDevices w) Hnd).
    + exact (handleDeviceRemoval_no_two vid pid w Hnd).
    + now rewrite connect_ports.
    + now rewrite send_this.
    + now rewrite disconnect_ports.
    + now rewrite readCallback_ports.
  - exact (handleNewDevice_no_two_descriptors vendorIdNames vid pid w Hnd).
  - exact Hnd.
Qed.

Lemma react_no_two (s : Step) (st : World * option Pass) :
  NoDup (registered (ports (this (fst st)))) ->
  NoDup (registered (ports (this (fst (react Serial vendorIdNames serialDevices s st))))).
Proof.
  intros Hnd. destruct s as [c|]; cbn [react fst].
  - apply invoke_no_two, Hnd.
  - destruct st as [w [p|]]; cbn [fst snd] in *; [|exact Hnd].
    exact (discovery_safe_no_two _ _ (pass_resume_safe Serial vendorIdNames p w) Hnd).
Qed.

(** X9. From construction on, whatever methods are called, direct and
    repeated calls of [handleNewDevice] for one pair included, and
    whenever the constructor's pass resumes, the registry never holds
    two descriptors with the same (vendorId, productId). *)
Theorem no_two_descriptors_ever (steps : list Step) :
  NoDup (registered
           (ports (this (fst (react_all Serial vendorIdNames serialDevices steps
                                        (constructor Serial serialDevices)))))).
Proof.
  assert (H0 : NoDup (registered (ports (this (fst (constructor Serial serialDevices)))))).
  { rewrite constructor_this. constructor. }
  revert H0. generalize (constructor Serial serialDevices).
  unfold react_all. induction steps as [|s steps IH]; intros st Hnd; cbn; [exact Hnd|].
  apply IH, react_no_two, Hnd.
Qed.

Lemma splice1_length {A} (i : nat) (l : list A) :
  (List.length (fst (splice1 i l)) <= List.length l)%nat.
Proof.
  revert i. induction l as [|x l IH]; intros i; [destruct i; cbn; lia|].
  destruct i as [|i]; cbn; [lia|].
  specialize (IH i). destruct (splice1 i l) as [rest removed]. cbn in *. lia.
Qed.

Lemma handleDeviceRemoval_length (vid pid : Z) (w : World) :
  (List.length (ports (this (snd (handleDeviceRemoval vid pid w))))
   <= List.length (ports (this w)))%nat.
Proof.
  destruct (findIndex_port vid pid (ports (this w))) as [i|e] eqn:Hfind.
  - destruct (Z.eq_dec i (-1)) as [->|Hi].
    + run. rewrite Hfind. cbn. lia.
    + destruct (findIndex_port_found vid pid _ i Hfind Hi)
        as (before & p & after & Hports & _ & Hb & Hp).
      rewrite (handleDeviceRemoval_found vid pid w before after p Hports Hb Hp). cbn.
      rewrite Hports, !length_app. cbn. lia.
  - run. rewrite Hfind. cbn. lia.
Qed.

Lemma waiting_le (o : option Pass) : (waiting o <= 1)%nat.
Proof. destruct o; cbn; lia. Qed.

(** A turn of a waiting pass appends at most one entry, and the pass has
    ended when it does. *)
Lemma pass_resume_length (p : Pass) (w : World) :
  (List.length (ports (this (fst (pass_resume Serial vendorIdNames p w))))
   + waiting (snd (pass_resume Serial vendorIdNames p w))
   <= List.length (ports (this w)) + 1)%nat.
Proof.
  unfold pass_resume. rewrite requestPermissionDevice_after_eq.
  assert (Hnext : forall w0, this w0 = this w ->
            (List.length (ports (this (fst (pass_next Serial (remaining p) w0))))
             + waiting (snd (pass_next Serial (remaining p) w0))
             <= List.length (ports (this w)) + 1)%nat).
  { intros w0 Hw0. rewrite pass_next_this, Hw0.
    pose proof (waiting_le (snd (pass_next Serial (remaining p) w0))). lia. }
  destruct (answer_grants (answer p)); [|apply Hnext; reflexivity].
  destruct (some_port (fst (awaited p)) (snd (awaited p)) (ports (this w)))
    as [[|]|e] eqn:Hsome; try (apply Hnext; reflexivity).
  - cbn. lia.
  - destruct (handleNewDevice_fresh vendorIdNames _ _ w Hsome) as (q & _ & _ & _ & ->).
    cbn. rewrite length_app. cbn. lia.
Qed.

Lemma react_at_most_two (s : Step) (st : World * option Pass) :
  step_through_getDevices s = true ->
  (List.length (ports (this (fst st))) + waiting (snd st) <= 2)%nat ->
  (List.length (ports (this (fst (react Serial vendorIdNames serialDevices s st))))
   + waiting (snd (react Serial vendorIdNames serialDevices s st)) <= 2)%nat.
Proof.
  intros Hs Hlen. destruct st as [w o]. cbn [fst snd] in Hlen.
  destruct s as [[op|vid pid|]|]; cbn [react invoke fst snd]; try discriminate.
  - destruct op; cbn [perform]; try discriminate.
    + destruct (ports (this w)) as [|entry rest] eqn:Hports.
      * destruct (getDevices_safe Serial vendorIdNames serialDevices w)
          as (emitted & added & _ & Hp & _ & _ & Hadd).
        rewrite Hp, Hports. cbn [app]. pose proof (waiting_le o). lia.
      * rewrite getDevices_nonempty; [rewrite Hports; exact Hlen|].
        rewrite Hports. discriminate.
    + pose proof (handleDeviceRemoval_length vid pid w). lia.
    + now rewrite connect_ports.
    + now rewrite send_this.
    + now rewrite disconnect_ports.
    + now rewrite readCallback_ports.
  - exact Hlen.
  - destruct o as [p|]; cbn [fst snd]; [|exact Hlen].
    pose proof (pass_resume_length p w). cbn [waiting] in Hlen. lia.
Qed.

(** X10. As long as discovery is reached through the constructor and
    [getDevices] only, each call running to its completion and the
    constructor's pass resuming anywhere between the calls, the registry
    never holds more than two entries: one that the constructor's pass
    may add and one that a [getDevices] pass may add. *)
Theorem registry_at_most_two (steps : list Step) :
  forallb step_through_getDevices steps = true ->
  (List.length
     (ports (this (fst (react_all Serial vendorIdNames serialDevices steps
                                  (constructor Serial serialDevices)))))
   <= 2)%nat.
Proof.
  assert (H0 : (List.length (ports (this (fst (constructor Serial serialDevices))))
                + waiting (snd (constructor Serial serialDevices)) <= 2)%nat).
  { rewrite constructor_this.
    pose proof (waiting_le (snd (constructor Serial serialDevices))).
    cbn [initial ports List.length]. lia. }
  intros Hall.
  enough (H : (List.length
                 (ports (this (fst (react_all Serial vendorIdNames serialDevices steps
                                              (constructor Serial serialDevices)))))
               + waiting (snd (react_all Serial vendorIdNames serialDevices steps
                                         (constructor Serial serialDevices))) <= 2)%nat)
    by lia.
  revert H0 Hall. generalize (constructor Serial serialDevices).
  unfold react_all. induction steps as [|s steps IH]; intros st Hlen Hall; cbn in *;
    [exact Hlen|].
  apply andb_prop in Hall. destruct Hall as [Hs Hall].
  apply IH; [apply react_at_most_two; assumption|exact Hall].
Qed.



End Registry.

(** ** Further properties: errors and the connection *)

Section Errors.

Variable Serial : Transport.
Variable vendorIdNames : Z -> option string.
Variable serialDevices : list (Z * Z).

(** X12. A second [disconnect()] does nothing: whatever the first one
    did, and also when it threw, the next call makes no transport call,
    dispatches nothing, changes nothing and returns normally. *)
Theorem disconnect_twice (w : World) :
  let w1 := snd (disconnect Serial w) in
  disconnect Serial w1 = (Normal tt, w1).
Proof.
  cbn zeta. apply disconnect_closed.
  destruct (isOpen (this w)) eqn:Hopen.
  - rewrite (disconnect_cleanup Serial w Hopen). reflexivity.
  - rewrite (disconnect_closed Serial w Hopen). exact Hopen.
Qed.

(** X13. When [unregisterReadCallback] rejects, [disconnect()] never
    calls [closeConnection]: it marks the controller closed, dispatches
    "disconnect" with true and throws the wrapped error, and the only
    transport call it has made is the failed one. *)
Theorem disconnect_unregister_fails_skips_close (w : World) (e : JS.Value) :
  isOpen (this w) = true ->
  unregisterReadCallback Serial (trace w) = Throw e ->
  JS.truthy e = true ->
  let '(r, w') := disconnect Serial w in
  r = Throw (JS.Error "Error" "Failed to close serial port" e) /\
  isOpen (this w') = false /\
  trace w' = (trace w ++ [Invoke unregisterReadCallbackCall;
                          Dispatch (disconnectEvent true)])%list.
Proof.
  intros Hopen Hun He. rewrite (disconnect_cleanup Serial w Hopen).
  unfold close_error, close_calls. rewrite Hun, He. cbn.
  repeat split.
Qed.

(** X14. The only value [disconnect()] throws is the error "Failed to
    close serial port": when it throws, the controller was open and is
    now closed, and the cause is the truthy value with which
    [unregisterReadCallback], or after it [closeConnection], rejected. *)
Theorem disconnect_throws_only_wrapper (w : World) (e : JS.Value) :
  fst (disconnect Serial w) = Throw e ->
  isOpen (this w) = true /\
  isOpen (this (snd (disconnect Serial w))) = false /\
  exists cause,
    e = JS.Error "Error" "Failed to close serial port" cause /\
    JS.truthy cause = true /\
    (unregisterReadCallback Serial (trace w) = Throw cause \/
     (unregisterReadCallback Serial (trace w) = Normal tt /\
      closeConnection Serial (trace w ++ [Invoke unregisterReadCallbackCall])%list
      = Throw cause)).
Proof.
  destruct (isOpen (this w)) eqn:Hopen.
  - rewrite (disconnect_cleanup Serial w Hopen). unfold close_error. cbn [fst snd].
    intros H. split; [reflexivity|]. split; [reflexivity|].
    destruct (unregisterReadCallback Serial (trace w)) as [[]|e1].
    + destruct (closeConnection Serial (trace w ++ [Invoke unregisterReadCallbackCall])%list)
        as [[]|e2]; cbn in H; [discriminate|].
      destruct (JS.truthy e2) eqn:Ht; [|discriminate].
      inversion H; subst. exists e2. auto.
    + destruct (JS.truthy e1) eqn:Ht; [|discriminate].
      inversion H; subst. exists e1. auto.
  - rewrite (disconnect_closed Serial w Hopen). discriminate.
Qed.

(** X15. A rejection with a falsy value is lost: when [closeConnection]
    rejects with [undefined], [null], [false], 0 or the empty string,
    [disconnect()] closes the controller and returns normally. *)
Theorem disconnect_swallows_falsy_rejection (w : World) (e : JS.Value) :
  isOpen (this w) = true ->
  unregisterReadCallback Serial (trace w) = Normal tt ->
  closeConnection Serial (trace w ++ [Invoke unregisterReadCallbackCall])%list = Throw e ->
  JS.truthy e = false ->
  let '(r, w') := disconnect Serial w in
  r = Normal tt /\
  isOpen (this w') = false /\
  trace w' = (trace w ++ [Invoke unregisterReadCallbackCall;
                          Invoke closeConnectionCall;
                          Dispatch (disconnectEvent true)])%list.
Proof.
  intros Hopen Hun Hclose He. rewrite (disconnect_cleanup Serial w Hopen).
  unfold close_error, close_calls. rewrite Hun, Hclose, He. repeat split.
Qed.

Lemma requestPermissionDevice_loop_returns (devices : list (Z * Z)) :
  forall w : World,
    exists b, fst (requestPermissionDevice_loop Serial vendorIdNames devices w) = Normal b.
Proof.
  induction devices as [|[vid pid] rest IH]; intros w.
  - exists false. reflexivity.
  - cbn [requestPermissionDevice_loop]. unfold bind.
    rewrite requestPermissionDevice_body_eq.
    destruct (grants Serial (trace w) (vid, pid)); [|apply IH].
    destruct (some_port vid pid (ports (this w))) as [[|]|e]; try apply IH;
      exists true; reflexivity.
Qed.

(** X16. [requestPermissionDevice] and [getDevices] never throw,
    whatever the registry holds, [null] entries included, and whatever
    the transport answers (a rejection, a [null] response): every
    failure met on the way ends in a returned value. *)
Theorem discovery_never_throws (w : World) :
  (exists b, fst (requestPermissionDevice Serial vendorIdNames serialDevices w) = Normal b) /\
  (exists l, fst (getDevices Serial vendorIdNames serialDevices w) = Normal l).
Proof.
  split.
  - apply requestPermissionDevice_loop_returns.
  - unfold getDevices, loadDevices, bind, gets, ret.
    destruct (0 <? Z.of_nat (List.length (ports (this w)))); [eexists; reflexivity|].
    destruct (requestPermissionDevice_loop_returns serialDevices w) as [b Hb].
    unfold requestPermissionDevice.
    destruct (requestPermissionDevice_loop Serial vendorIdNames serialDevices w) as [r w'].
    cbn in Hb. subst r. eexists. reflexivity.
Qed.

Lemma readCallback_no_chunk (d : Delivery) (w : World) :
  chunk_of d = None -> readCallback (fst d) (snd d) w = (Normal tt, w).
Proof.
  destruct d as [[[[chunk|]]|] error]; cbn; intros H; try discriminate; reflexivity.
Qed.

(** X17. With the receive listener registered, after any sequence of
    calls of the read handler [bytesReceived] has grown by exactly the
    total byte length of the chunks delivered, one "receive" event has
    been dispatched per chunk, in order, and calls without data (no
    message, no [data], an error only) have left no mark. *)
Theorem deliveries_are_counted (ds : list Delivery) (w : World) :
  receiveListener (this w) = true ->
  deliver_all ds w =
  mkWorld (set_bytesReceived (bytesReceived (this w) + delivered_bytes ds) (this w))
          (trace w ++ delivered_events ds)%list.
Proof.
  revert w. induction ds as [|d ds IH]; intros w Hl.
  - cbn. rewrite Z.add_0_r, app_nil_r. destruct w as [[] h]; reflexivity.
  - change (deliver_all (d :: ds) w)
      with (deliver_all ds (snd (readCallback (fst d) (snd d) w))).
    cbn [delivered_bytes delivered_events].
    destruct (chunk_of d) as [chunk|] eqn:Hc.
    + assert (Hd : fst d = Some {| data := Some chunk |}).
      { destruct d as [[[[c|]]|] error]; cbn in Hc; inversion Hc; reflexivity. }
      rewrite Hd, (readCallback_receive chunk (snd d) w Hl). cbn [snd].
      rewrite IH by exact Hl. cbn. f_equal.
      * unfold set_bytesReceived. cbn. f_equal. lia.
      * now rewrite <- app_assoc.
    + rewrite (readCallback_no_chunk d w Hc). cbn [snd]. apply IH, Hl.
Qed.

Lemma findIndex_port_null (vid pid : Z) (before after : list (option PortDescriptor)) :
  some_port vid pid before = Normal false ->
  some_port vid pid (before ++ None :: after) = Throw (JS.TypeError "vendorId") /\
  findIndex_port vid pid (before ++ None :: after) = Throw (JS.TypeError "vendorId").
Proof.
  induction before as [|[p|] before IH]; cbn; intros H; [split; reflexivity| |discriminate].
  destruct (same_device vid pid p); [discriminate|].
  destruct (IH H) as [-> ->]. split; reflexivity.
Qed.

(** X18. A [null] entry hides every pair not registered before it: for
    such a pair [handleNewDevice] and [handleDeviceRemoval] throw a
    TypeError and change nothing, and a negotiation pass over that pair
    alone asks the transport and returns false, with no registration
    and no event, even when the transport grants it. *)
Theorem null_entry_hides_pair (vid pid : Z) (w : World)
        (before after : list (option PortDescriptor)) :
  ports (this w) = (before ++ None :: after)%list ->
  some_port vid pid before = Normal false ->
  handleNewDevice vendorIdNames vid pid w = (Throw (JS.TypeError "vendorId"), w) /\
  handleDeviceRemoval vid pid w = (Throw (JS.TypeError "vendorId"), w) /\
  requestPermissionDevice Serial vendorIdNames [(vid, pid)] w
  = (Normal false, asked (vid, pid) w).
Proof.
  intros Hports Hb. destruct (findIndex_port_null vid pid before after Hb) as [Hs Hf].
  rewrite <- Hports in Hs, Hf. split; [|split].
  - exact (handleNewDevice_throws vendorIdNames vid pid w _ Hs).
  - run. rewrite Hf. reflexivity.
  - unfold requestPermissionDevice. cbn [requestPermissionDevice_loop]. unfold bind.
    rewrite requestPermissionDevice_body_eq, Hs.
    destruct (grants Serial (trace w) (vid, pid)); reflexivity.
Qed.

Lemma invoke_isOpen (c : MethodCall) (w : World) :
  is_connect c = false ->
  isOpen (this (invoke Serial vendorIdNames serialDevices c w)) = true ->
  isOpen (this w) = true.
Proof.
  intros Hc. destruct c as [op|vid pid|]; cbn [invoke].
  - destruct op; cbn [perform]; try discriminate.
    + pose proof (getDevices_only_ports Serial vendorIdNames serialDevices w) as H.
      cbn zeta in H. now rewrite H.
    + pose proof (requestPermissionDevice_only_ports Serial vendorIdNames serialDevices w)
        as H. cbn zeta in H. now rewrite H.
    + pose proof (handleDeviceRemoval_only_ports vid pid w) as H. cbn zeta in H.
      now rewrite H.
    + now rewrite send_this.
    + destruct (isOpen (this w)) eqn:Hopen; [reflexivity|].
      rewrite (disconnect_closed Serial w Hopen). cbn [snd]. congruence.
    + destruct message as [[[chunk|]]|]; run; try tauto.
      destruct (receiveListener (this w)); cbn; tauto.
  - pose proof (handleNewDevice_only_ports vendorIdNames vid pid w) as H. cbn zeta in H.
    now rewrite H.
  - tauto.
Qed.

Lemma invoke_open_has_id (c : MethodCall) (w : World) :
  (isOpen (this w) = true -> connectionId (this w) <> None) ->
  isOpen (this (invoke Serial vendorIdNames serialDevices c w)) = true ->
  connectionId (this (invoke Serial vendorIdNames serialDevices c w)) <> None.
Proof.
  intros Hinv. destruct (is_connect c) eqn:Hc.
  - destruct c as [[]| |]; try discriminate. cbn [invoke perform]. run.
    destruct (openConnection Serial (trace w) (default_options options)) as [[]|e]; cbn.
    + destruct (registerReadCallback Serial _) as [[]|e]; cbn; discriminate.
    + exact Hinv.
  - intros Hopen. rewrite (invoke_connectionId Serial vendorIdNames serialDevices c w Hc).
    exact (Hinv (invoke_isOpen c w Hc Hopen)).
Qed.

Lemma react_open_has_id (s : Step) (st : World * option Pass) :
  (isOpen (this (fst st)) = true -> connectionId (this (fst st)) <> None) ->
  isOpen (this (fst (react Serial vendorIdNames serialDevices s st))) = true ->
  connectionId (this (fst (react Serial vendorIdNames serialDevices s st))) <> None.
Proof.
  intros Hinv. destruct s as [c|]; cbn [react fst].
  - apply invoke_open_has_id, Hinv.
  - destruct st as [w [p|]]; cbn [fst snd] in *; [|exact Hinv].
    pose proof (pass_resume_only_ports Serial vendorIdNames p w) as H. cbn zeta in H.
    rewrite H. exact Hinv.
Qed.

(** X19. One half of the Connection State invariant is kept by every
    method: from construction on, whatever is called and whenever the
    constructor's pass resumes, an open controller has its
    [connectionId] set ([getConnectedPort()] is not null while [isOpen]
    is true). *)
Theorem open_controller_has_connectionId (steps : list Step) :
  let w := fst (react_all Serial vendorIdNames serialDevices steps
                          (constructor Serial serialDevices)) in
  isOpen (this w) = true -> connectionId (this w) <> None.
Proof.
  cbn zeta.
  assert (H0 : isOpen (this (fst (constructor Serial serialDevices))) = true ->
               connectionId (this (fst (constructor Serial serialDevices))) <> None).
  { rewrite constructor_this. cbn. discriminate. }
  revert H0. generalize (constructor Serial serialDevices).
  unfold react_all. induction steps as [|s steps IH]; intros st Hinv; cbn; [exact Hinv|].
  apply IH. exact (react_open_has_id s st Hinv).
Qed.

End Errors.

(** ** Instances of the further properties at concrete inputs *)

Lemma handleDeviceRemoval_absent_witness :
  let w := with_ports [Some stm_port] in
  registry_wf (this w) /\
  is_registered 11836 22336 (ports (this w)) = false /\
  handleDeviceRemoval 11836 22336 w = (Normal tt, w).
Proof.
  assert (Hwf : registry_wf (this (with_ports [Some stm_port])))
    by (repeat constructor; discriminate).
  split; [exact Hwf|]. split; [reflexivity|].
  apply (handleDeviceRemoval_absent 11836 22336 (with_ports [Some stm_port]) Hwf).
  reflexivity.
Defined.



Lemma handleDeviceRemoval_keeps_null_witness :
  let w := with_ports [Some stm_port; None] in
  In None (ports (this w)) /\
  In None (ports (this (snd (handleDeviceRemoval 1155 22336 w)))).
Proof.
  assert (Hin : In None (ports (this (with_ports [Some stm_port; None]))))
    by (right; left; reflexivity).
  split; [exact Hin|].
  exact (handleDeviceRemoval_keeps_null 1155 22336 (with_ports [Some stm_port; None]) Hin).
Defined.

Lemma receive_counted_after_any_calls_witness :
  receiveListener (this opened) = true /\
  let w1 := invoke_all Serial_ok names_stm devices_3 [Public Disconnect] opened in
  let '(r, w2) := readCallback (Some {| data := Some two_bytes |}) None w1 in
  r = Normal tt /\
  trace w2 = (trace w1 ++ [Dispatch (receive two_bytes)])%list /\
  bytesReceived (this w2) = bytesReceived (this w1) + byteLength two_bytes /\
  bytesReceived (this opened) + byteLength two_bytes <= bytesReceived (this w2).
Proof.
  split; [reflexivity|].
  apply (receive_counted_after_any_calls Serial_ok names_stm devices_3
           [Public Disconnect] opened two_bytes None).
  reflexivity.
Defined.

Lemma getConnectedPort_changed_only_by_connect_witness :
  let calls := [Public Disconnect; Public GetDevices; HandleNewDevice 1155 22336] in
  forallb (fun c => negb (is_connect c)) calls = true /\
  fst (getConnectedPort (invoke_all Serial_ok names_stm devices_3 calls opened))
  = fst (getConnectedPort opened).
Proof.
  split; [reflexivity|].
  apply (getConnectedPort_changed_only_by_connect Serial_ok names_stm devices_3).
  reflexivity.
Defined.

Lemma registry_at_most_two_witness :
  let steps := [Method (Public GetDevices); ResumePass; ResumePass;
                Method (Public GetDevices)] in
  let w := fst (react_all Serial_second names_stm devices_3 steps
                          (constructor Serial_second devices_3)) in
  forallb step_through_getDevices steps = true /\
  List.length (ports (this w)) = 2%nat /\
  (List.length (ports (this w)) <= 2)%nat.
Proof.
  split; [reflexivity|]. split; [reflexivity|].
  apply (registry_at_most_two Serial_second names_stm devices_3). reflexivity.
Defined.


Lemma disconnect_unregister_fails_skips_close_witness :
  isOpen (this opened) = true /\
  unregisterReadCallback Serial_unregister_fails (trace opened) = Throw boom /\
  JS.truthy boom = true /\
  let '(r, w') := disconnect Serial_unregister_fails opened in
  r = Throw (JS.Error "Error" "Failed to close serial port" boom) /\
  isOpen (this w') = false /\
  trace w' = (trace opened ++ [Invoke unregisterReadCallbackCall;
                               Dispatch (disconnectEvent true)])%list.
Proof.
  split; [reflexivity|]. split; [reflexivity|]. split; [reflexivity|].
  apply (disconnect_unregister_fails_skips_close Serial_unregister_fails opened boom);
    reflexivity.
Defined.

Lemma disconnect_throws_only_wrapper_witness :
  fst (disconnect Serial_close_fails opened)
  = Throw (JS.Error "Error" "Failed to close serial port" boom) /\
  isOpen (this opened) = true /\
  isOpen (this (snd (disconnect Serial_close_fails opened))) = false.
Proof.
  assert (H : fst (disconnect Serial_close_fails opened)
              = Throw (JS.Error "Error" "Failed to close serial port" boom))
    by reflexivity.
  split; [exact H|].
  destruct (disconnect_throws_only_wrapper Serial_close_fails opened _ H) as (Ho & Hc & _).
  split; assumption.
Defined.

Lemma disconnect_swallows_falsy_rejection_witness :
  isOpen (this opened) = true /\
  closeConnection Serial_close_rejects_undefined
                  (trace opened ++ [Invoke unregisterReadCallbackCall])%list
  = Throw JS.Undefined /\
  JS.truthy JS.Undefined = false /\
  let '(r, w') := disconnect Serial_close_rejects_undefined opened in
  r = Normal tt /\
  isOpen (this w') = false /\
  trace w' = (trace opened ++ [Invoke unregisterReadCallbackCall;
                               Invoke closeConnectionCall;
                               Dispatch (disconnectEvent true)])%list.
Proof.
  split; [reflexivity|]. split; [reflexivity|]. split; [reflexivity|].
  apply (disconnect_swallows_falsy_rejection Serial_close_rejects_undefined opened
           JS.Undefined); reflexivity.
Defined.

Lemma deliveries_are_counted_witness :
  receiveListener (this opened) = true /\
  deliver_all three_deliveries opened =
  mkWorld (set_bytesReceived (bytesReceived (this opened) + delivered_bytes three_deliveries)
                             (this opened))
          (trace opened ++ delivered_events three_deliveries)%list /\
  delivered_bytes three_deliveries = 2.
Proof.
  split; [reflexivity|]. split; [|reflexivity].
  apply (deliveries_are_counted three_deliveries opened). reflexivity.
Defined.

Lemma null_entry_hides_pair_witness :
  let w := with_ports [Some stm_port; None] in
  ports (this w) = ([Some stm_port] ++ None :: [])%list /\
  some_port 11836 22336 [Some stm_port] = Normal false /\
  handleNewDevice names_stm 11836 22336 w = (Throw (JS.TypeError "vendorId"), w) /\
  handleDeviceRemoval 11836 22336 w = (Throw (JS.TypeError "vendorId"), w) /\
  requestPermissionDevice Serial_ok names_stm [(11836, 22336)] w
  = (Normal false, asked (11836, 22336) w).
Proof.
  split; [reflexivity|]. split; [reflexivity|].
  apply (null_entry_hides_pair Serial_ok names_stm 11836 22336
           (with_ports [Some stm_port; None]) [Some stm_port] []); reflexivity.
Defined.

Lemma open_controller_has_connectionId_witness :
  let w := fst (react_all Serial_ok names_stm devices_3
                          [ResumePass; Method (Public (Connect "serial" None))]
                          (constructor Serial_ok devices_3)) in
  isOpen (this w) = true /\ connectionId (this w) <> None.
Proof.
  assert (H : isOpen (this (fst (react_all Serial_ok names_stm devices_3
                                           [ResumePass;
                                            Method (Public (Connect "serial" None))]
                                           (constructor Serial_ok devices_3))))
              = true) by reflexivity.
  split; [exact H|].
  exact (open_controller_has_connectionId Serial_ok names_stm devices_3
           [ResumePass; Method (Public (Connect "serial" None))] H).
Defined.
